(** * Consensus coordinator and consensus state store of the Lisk SDK

    A shallow embedding of
    - [Consensus] (framework, consensus component): block processing,
      tie-break swap, deletion guard, synchronisation supervisor, stop flag;
    - [ConsensusStateStore] (lisk-chain, state_store/consensus_state_store.ts):
      the cache, the set of updated keys and the reverse state diff.

    Promises are modelled by a state and exception monad over the fields of
    the class; what the coordinator does to the outside (logger, event
    emitter, network) is kept as a trace. The collaborators the class only
    calls (state machine, BFT API, codec, database, fork choice, synchronizer
    mechanisms) are oracles, indexed by a call counter so that a call may end
    differently each time.

    Modules [Consensus] and [ConsensusStateStore] hold the definitions,
    [ConsensusProperties] and [ConsensusStateStoreProperties] what is proved
    of them. *)

From Stdlib Require Import ZArith Bool List Lia.
From stdpp Require Import base option strings list gmap.
Import ListNotations.

Local Open Scope string_scope.
Local Open Scope list_scope.

Module Consensus.

(** ** Data *)

(** Buffers are kept by their contents here; nothing in the coordinator
    compares two buffers by reference. *)
Definition Bytes := string.

Record BlockHeader := {
  h_id : Bytes;
  h_version : Z;
  h_height : Z;
  h_timestamp : Z;
  h_previousBlockID : Bytes;
  h_generatorAddress : Bytes;
  h_maxHeightPrevoted : Z
}.

Record Block := {
  header : BlockHeader;
  payload : list Bytes;
  assets : list Bytes
}.

(** [ExecuteOptions] and [DeleteOptions]: every field is optional. *)
Record ExecuteOptions := {
  skipBroadcast : option bool;
  removeFromTempTable : option bool
}.

Record DeleteOptions := { saveTempBlock : option bool }.

Definition no_options : ExecuteOptions :=
  {| skipBroadcast := None; removeFromTempTable := None |}.

(** [!x] on an optional boolean: [undefined] is falsy. *)
Definition truthy (o : option bool) : bool :=
  match o with Some b => b | None => false end.

(** [x ?? d] and the default of a destructured parameter. *)
Definition or_default {A} (o : option A) (d : A) : A :=
  match o with Some a => a | None => d end.

Definition BLOCK_VERSION : Z := 2.

Inductive ForkStatus :=
| IDENTICAL_BLOCK | VALID_BLOCK | DOUBLE_FORGING
| TIE_BREAK | DIFFERENT_CHAIN | DISCARD.

Definition ForkStatus_eqb (a b : ForkStatus) : bool :=
  match a, b with
  | IDENTICAL_BLOCK, IDENTICAL_BLOCK | VALID_BLOCK, VALID_BLOCK
  | DOUBLE_FORGING, DOUBLE_FORGING | TIE_BREAK, TIE_BREAK
  | DIFFERENT_CHAIN, DIFFERENT_CHAIN | DISCARD, DISCARD => true
  | _, _ => false
  end.

Definition forkStatusList : list ForkStatus :=
  [IDENTICAL_BLOCK; VALID_BLOCK; DOUBLE_FORGING; TIE_BREAK; DIFFERENT_CHAIN; DISCARD].

(** The error classes the coordinator tests with [instanceof]; [JsError]
    stands for every other thrown value. *)
Inductive ErrorClass :=
| ApplyPenaltyError | ApplyPenaltyAndRestartError | RestartError | AbortError
| JsError.

Record Exception := { cls : ErrorClass; message : option string }.

Inductive LogLevel := LDebug | LInfo | LWarn | LError.

Inductive ConsensusEvent :=
| CONSENSUS_EVENT_BLOCK_BROADCAST | CONSENSUS_EVENT_BLOCK_DELETE
| CONSENSUS_EVENT_BLOCK_NEW | CONSENSUS_EVENT_FORK_DETECTED.

Record NodeInfo := {
  ni_height : Z;
  ni_lastBlockID : Bytes;
  ni_maxHeightPrevoted : Z;
  ni_blockVersion : Z
}.

(** Everything the coordinator does to the outside, in program order:
    logger calls, [events.emit], [network.send], [network.applyPenaltyOnPeer]
    and [network.applyNodeInfo]. *)
Inductive Effect :=
| Log (level : LogLevel) (msg : string)
| Emit (ev : ConsensusEvent) (b : Block)
| NetworkSend (b : Block)
| ApplyPenaltyOnPeer (peerId : string) (penalty : Z)
| ApplyNodeInfo (info : NodeInfo).

(** Modelled from the spec: the [Chain] handle of lisk-chain (the class is
    not among the sources). It holds the tip, the blocks below it, the
    finalized height and the temp table of removed blocks. *)
Record Chain := {
  lastBlock : Block;
  previousBlocks : list Block;
  finalizedHeight : Z;
  tempBlocks : list Block
}.

(** What [onBlockReceive] is handed: [data: unknown]. *)
Inductive PostData := BufferData (bytes : Bytes) | NotABuffer.

(** Modelled from the spec: a synchronisation mechanism "mutates the chain
    only via a provided BlockExecutor capability". A run of the synchronizer
    is a tree of calls to [deleteLastBlock], [executeValidated] and [verify];
    each continuation sees how the call ended ([None]: it returned) and the
    chain after it. *)
Inductive SyncProg :=
| SyncReturn
| SyncThrow (e : Exception)
| SyncDeleteLastBlock (o : DeleteOptions) (k : option Exception -> Chain -> SyncProg)
| SyncExecuteValidated (b : Block) (o : ExecuteOptions)
    (k : option Exception -> Chain -> SyncProg)
| SyncVerify (b : Block) (k : option Exception -> Chain -> SyncProg).

(** The collaborators. Each takes the value of a call counter as first
    argument, so that the same call may end differently the next time. *)
Record Collaborators := {
  stateMachine_verifyBlock : nat -> Block -> Chain -> option Exception;
  stateMachine_executeBlock : nat -> Block -> Chain -> option Exception;
  bftAPI_getBFTHeights : nat -> Block -> Chain -> Exception + Z;
  chain_verifyBlock : nat -> Block -> Chain -> option Exception;
  db_write : nat -> Block -> Chain -> option Exception;
  forkChoice : nat -> BlockHeader -> BlockHeader -> ForkStatus;
  codec_decode : Bytes -> Exception + Bytes;
  Block_fromBytes : Bytes -> Exception + Block;
  synchronizer_run : nat -> Block -> string -> Chain -> SyncProg
}.

(** ** The fields of the class *)

Record State := {
  _chain : Chain;
  _stop : bool;
  _mutex : bool;          (* the mutex is held *)
  isActive : bool;        (* this._synchronizer.isActive *)
  trace : list Effect;
  calls : nat
}.

Definition set_chain (c : Chain) (s : State) : State :=
  {| _chain := c; _stop := _stop s; _mutex := _mutex s; isActive := isActive s;
     trace := trace s; calls := calls s |}.
Definition set_stop (b : bool) (s : State) : State :=
  {| _chain := _chain s; _stop := b; _mutex := _mutex s; isActive := isActive s;
     trace := trace s; calls := calls s |}.
Definition set_mutex (b : bool) (s : State) : State :=
  {| _chain := _chain s; _stop := _stop s; _mutex := b; isActive := isActive s;
     trace := trace s; calls := calls s |}.
Definition set_isActive (b : bool) (s : State) : State :=
  {| _chain := _chain s; _stop := _stop s; _mutex := _mutex s; isActive := b;
     trace := trace s; calls := calls s |}.
Definition add_effect (e : Effect) (s : State) : State :=
  {| _chain := _chain s; _stop := _stop s; _mutex := _mutex s; isActive := isActive s;
     trace := trace s ++ [e]; calls := calls s |}.
Definition next_call (s : State) : State :=
  {| _chain := _chain s; _stop := _stop s; _mutex := _mutex s; isActive := isActive s;
     trace := trace s; calls := S (calls s) |}.

(** ** Promises *)

(** How an [async] call ends: it returns, it throws, it never settles (the
    mutex is never granted), or the model ran out of fuel. *)
Inductive Outcome (A : Type) :=
| Returned (a : A)
| Thrown (e : Exception)
| Pending
| OutOfFuel.
Arguments Returned {A} a.
Arguments Thrown {A} e.
Arguments Pending {A}.
Arguments OutOfFuel {A}.

Definition M (A : Type) : Type := State -> Outcome A * State.

Definition ret {A} (a : A) : M A := fun s => (Returned a, s).
Definition throw {A} (e : Exception) : M A := fun s => (Thrown e, s).

Definition bind {A B} (m : M A) (k : A -> M B) : M B :=
  fun s =>
    match m s with
    | (Returned a, s') => k a s'
    | (Thrown e, s') => (Thrown e, s')
    | (Pending, s') => (Pending, s')
    | (OutOfFuel, s') => (OutOfFuel, s')
    end.

(** [try { m } catch (error) { h error }] *)
Definition try_catch {A} (m : M A) (h : Exception -> M A) : M A :=
  fun s =>
    match m s with
    | (Thrown e, s') => h e s'
    | r => r
    end.

Declare Scope promise_scope.
Delimit Scope promise_scope with promise.
Notation "x <- m ;; k" := (bind m (fun x => k))
  (at level 100, m at next level, right associativity) : promise_scope.
Notation "m ;; k" := (bind m (fun _ => k))
  (at level 100, right associativity) : promise_scope.
Local Open Scope promise_scope.

Definition gets {A} (f : State -> A) : M A := fun s => (Returned (f s), s).
Definition modify (f : State -> State) : M unit := fun s => (Returned tt, f s).
Definition effect (e : Effect) : M unit := modify (add_effect e).

(** A call into a collaborator: hands out the counter and advances it. *)
Definition call : M nat := fun s => (Returned (calls s), next_call s).

Definition is_Some_b {A} (o : option A) : bool :=
  match o with Some _ => true | None => false end.

Definition JsErrorOf (msg : string) : Exception :=
  {| cls := JsError; message := Some msg |}.

(** Modelled from the spec: the [Mutex] of lisk-utils (not among the
    sources); "the mutex is held across suspension points". It is not
    re-entrant: asking for it while it is held never settles. *)
Definition acquire : M unit :=
  fun s => if _mutex s then (Pending, s) else (Returned tt, set_mutex true s).

(** Modelled from the spec: [Mutex.runExclusive] of lisk-utils. The body
    runs with the mutex held; the mutex is given back when the body returns
    or throws. *)
Definition runExclusive {A} (body : M A) : M A :=
  fun s =>
    if _mutex s then (Pending, s)
    else
      match body (set_mutex true s) with
      | (Returned a, s') => (Returned a, set_mutex false s')
      | (Thrown e, s') => (Thrown e, set_mutex false s')
      | (Pending, s') => (Pending, s')
      | (OutOfFuel, s') => (OutOfFuel, s')
      end.

(** ** The methods *)

Section Methods.

Variable env : Collaborators.

(** Modelled from the spec: [chain.saveBlock] ("Atomically: persist block,
    payload, state diff, new finalizedHeight, and append to header index").
    A failing write leaves the chain as it was. *)
Definition saveBlock (block : Block) (finalizedHeight' : Z)
    (removeFromTemp : bool) : M unit :=
  n <- call ;;
  c <- gets _chain ;;
  match db_write env n block c with
  | Some e => throw e
  | None =>
      modify (set_chain
        {| lastBlock := block;
           previousBlocks := lastBlock c :: previousBlocks c;
           finalizedHeight := finalizedHeight';
           tempBlocks :=
             if removeFromTemp
             then filter (fun b => h_id (header b) ≠ h_id (header block)) (tempBlocks c)
             else tempBlocks c |})
  end.

(** Modelled from the spec: [chain.removeBlock] (deleteLastBlock "writes
    deleted block to a temp table if requested"; the finalized height is not
    part of what a removal undoes). The block below the tip becomes the tip;
    the genesis block cannot be removed. *)
Definition removeBlock (block : Block) (saveTemp : bool) : M unit :=
  n <- call ;;
  c <- gets _chain ;;
  match db_write env n block c with
  | Some e => throw e
  | None =>
      match previousBlocks c with
      | [] => throw (JsErrorOf "Cannot delete genesis block")
      | p :: rest =>
          modify (set_chain
            {| lastBlock := p;
               previousBlocks := rest;
               finalizedHeight := finalizedHeight c;
               tempBlocks := if saveTemp then block :: tempBlocks c else tempBlocks c |})
      end
  end.

(** A collaborator that either returns or throws. *)
Definition check (f : nat -> Block -> Chain -> option Exception) (block : Block)
  : M unit :=
  n <- call ;;
  c <- gets _chain ;;
  match f n block c with
  | Some e => throw e
  | None => ret tt
  end.

Definition getBFTHeights (block : Block) : M Z :=
  n <- call ;;
  c <- gets _chain ;;
  match bftAPI_getBFTHeights env n block c with
  | inl e => throw e
  | inr maxHeightPrecommitted => ret maxHeightPrecommitted
  end.

Definition _executeValidated (block : Block) (options : ExecuteOptions) : M Block :=
  check (stateMachine_verifyBlock env) block ;;
  (if negb (truthy (skipBroadcast options))
   then effect (NetworkSend block) ;;
        effect (Emit CONSENSUS_EVENT_BLOCK_BROADCAST block)
   else ret tt) ;;
  check (stateMachine_executeBlock env) block ;;
  maxHeightPrecommitted <- getBFTHeights block ;;
  c <- gets _chain ;;
  let finalizedHeight' :=
    if (maxHeightPrecommitted >? finalizedHeight c)%Z
    then maxHeightPrecommitted
    else finalizedHeight c in
  saveBlock block finalizedHeight'
    (or_default (removeFromTempTable options) false) ;;
  effect (Emit CONSENSUS_EVENT_BLOCK_NEW block) ;;
  ret block.

Definition _verify (block : Block) : M unit :=
  if negb (h_version (header block) =? BLOCK_VERSION)%Z
  then throw {| cls := ApplyPenaltyError;
                message := Some "Block version must be 2" |}
  else
    try_catch (check (chain_verifyBlock env) block)
      (fun error =>
         throw {| cls := ApplyPenaltyError;
                  message := Some (or_default (message error)
                                     "Invalid block to be processed") |}).

Definition _deleteBlock (block : Block) (saveTemp : bool) : M unit :=
  c <- gets _chain ;;
  if (h_height (header block) <=? finalizedHeight c)%Z
  then throw (JsErrorOf "Can not delete block below or same as finalized height")
  else
    removeBlock block saveTemp ;;
    effect (Emit CONSENSUS_EVENT_BLOCK_DELETE block).

Definition _deleteLastBlock (options : DeleteOptions) : M unit :=
  stopped <- gets _stop ;;
  if stopped then ret tt
  else
    runExclusive (
      c <- gets _chain ;;
      effect (Log LDebug "Deleting last block") ;;
      _deleteBlock (lastBlock c) (or_default (saveTempBlock options) false)).

(** How a BlockExecutor call ended, as the mechanism sees it in its own
    try/catch. *)
Definition settle {A} (m : M A) : M (option Exception) :=
  fun s =>
    match m s with
    | (Returned _, s') => (Returned None, s')
    | (Thrown e, s') => (Returned (Some e), s')
    | (Pending, s') => (Pending, s')
    | (OutOfFuel, s') => (OutOfFuel, s')
    end.

(** The mechanism's calls, run against [_createBlockExecutor]'s closures. *)
Fixpoint runMechanism (p : SyncProg) : M unit :=
  match p with
  | SyncReturn => ret tt
  | SyncThrow e => throw e
  | SyncDeleteLastBlock o k =>
      r <- settle (_deleteLastBlock o) ;;
      c <- gets _chain ;;
      runMechanism (k r c)
  | SyncExecuteValidated b o k =>
      r <- settle (_executeValidated b o) ;;
      c <- gets _chain ;;
      runMechanism (k r c)
  | SyncVerify b k =>
      r <- settle (_verify b) ;;
      c <- gets _chain ;;
      runMechanism (k r c)
  end.

(** Modelled from the spec: [Synchronizer.run] ("isActive is true between
    entry and exit of run"). *)
Definition Synchronizer_run (block : Block) (peerID : string) : M unit :=
  n <- call ;;
  c <- gets _chain ;;
  modify (set_isActive true) ;;
  fun s =>
    match runMechanism (synchronizer_run env n block peerID c) s with
    | (Returned a, s') => (Returned a, set_isActive false s')
    | (Thrown e, s') => (Thrown e, set_isActive false s')
    | r => r
    end.

(** [_sync] calls itself after a restart; [fuel] bounds the restarts. *)
Fixpoint _sync (fuel : nat) (block : Block) (peerID : string) : M unit :=
  match fuel with
  | O => fun s => (OutOfFuel, s)
  | S fuel' =>
      stopped <- gets _stop ;;
      if stopped then ret tt
      else
        try_catch (Synchronizer_run block peerID)
          (fun error =>
             match cls error with
             | ApplyPenaltyAndRestartError =>
                 effect (ApplyPenaltyOnPeer peerID 100) ;;
                 _sync fuel' block peerID
             | RestartError => _sync fuel' block peerID
             | AbortError =>
                 effect (Log LInfo "Aborting synchronization mechanism")
             | _ => throw error
             end)
  end.

Definition includes (l : list ForkStatus) (x : ForkStatus) : bool :=
  existsb (ForkStatus_eqb x) l.

Definition _execute (fuel : nat) (block : Block) (peerID : string) : M unit :=
  stopped <- gets _stop ;;
  if stopped then ret tt
  else
    runExclusive (
      effect (Log LDebug "Starting to process block") ;;
      c <- gets _chain ;;
      let lastBlock := lastBlock c in
      n <- call ;;
      let forkStatus := forkChoice env n (header block) (header lastBlock) in
      if negb (includes forkStatusList forkStatus)
      then effect (Log LDebug "Unknown fork status") ;;
           throw (JsErrorOf "Unknown fork status")
      else
      match forkStatus with
      | DISCARD =>
          effect (Log LDebug "Discarding block") ;;
          effect (Emit CONSENSUS_EVENT_FORK_DETECTED block)
      | IDENTICAL_BLOCK =>
          effect (Log LDebug "Block already processed")
      | DOUBLE_FORGING =>
          effect (Log LWarn "Discarding block due to double forging") ;;
          effect (Emit CONSENSUS_EVENT_FORK_DETECTED block)
      | DIFFERENT_CHAIN =>
          effect (Log LDebug "Detected different chain to sync") ;;
          effect (Emit CONSENSUS_EVENT_FORK_DETECTED block) ;;
          _sync fuel block peerID
      | TIE_BREAK =>
          effect (Log LInfo "Received tie breaking block") ;;
          effect (Emit CONSENSUS_EVENT_FORK_DETECTED block) ;;
          _verify block ;;
          let previousLastBlock := lastBlock in
          _deleteBlock lastBlock false ;;
          try_catch (_executeValidated block no_options ;; ret tt)
            (fun err =>
               effect (Log LError
                 "Failed to apply newly received block. restoring previous block.") ;;
               _executeValidated previousLastBlock
                 {| skipBroadcast := Some true; removeFromTempTable := None |} ;;
               ret tt)
      | VALID_BLOCK =>
          effect (Log LDebug "Processing valid block") ;;
          _verify block ;;
          _executeValidated block no_options ;;
          effect (ApplyNodeInfo
            {| ni_height := h_height (header block);
               ni_lastBlockID := h_id (header block);
               ni_maxHeightPrevoted := 0;
               ni_blockVersion := h_version (header block) |})
      end).

Definition penalise (peerId : string) : M unit :=
  effect (ApplyPenaltyOnPeer peerId 100).

Definition onBlockReceive (fuel : nat) (data : PostData) (peerId : string) : M unit :=
  syncing <- gets isActive ;;
  if syncing
  then effect (Log LDebug "Client is syncing. Can't process new block at the moment.")
  else
  match data with
  | NotABuffer =>
      effect (Log LWarn "Received invalid post block data") ;;
      penalise peerId
  | BufferData bytes =>
      match codec_decode env bytes with
      | inl error =>
          effect (Log LWarn "Received post block broadcast request in unexpected format") ;;
          penalise peerId ;;
          throw error
      | inr blockBytes =>
          match Block_fromBytes env blockBytes with
          | inl error =>
              effect (Log LWarn
                "Received post block broadcast request in not decodable format") ;;
              penalise peerId ;;
              throw error
          | inr block =>
              try_catch (_execute fuel block peerId)
                (fun error =>
                   (match cls error with
                    | ApplyPenaltyError =>
                        effect (Log LWarn
                          "Received post block broadcast request with invalid block") ;;
                        penalise peerId
                    | _ => ret tt
                    end) ;;
                   throw error)
          end
      end
  end.

(** [execute]: the block handed over by the generator. *)
Definition execute (block : Block) : M unit :=
  runExclusive (_executeValidated block no_options ;; ret tt).

Definition stop : M unit :=
  modify (set_stop true) ;;
  acquire.

End Methods.

(** ** Frames

    A relation between the state before a call and the state after it that
    the call respects, however it ends. *)
Definition framed (R : State -> State -> Prop) {A} (m : M A) : Prop :=
  forall s, R s (m s).2.

(** ** Sequences of operations

    The public entry points and the three closures the BlockExecutor hands to
    the synchronizer. *)
Inductive Operation :=
| OpExecute (block : Block)
| OpOnBlockReceive (data : PostData) (peerId : string)
| OpStop
| OpDeleteLastBlock (options : DeleteOptions)
| OpExecuteValidated (block : Block) (options : ExecuteOptions)
| OpVerify (block : Block).

(** The state an operation leaves, however it ends. *)
Definition perform (env : Collaborators) (fuel : nat) (op : Operation)
    (s : State) : State :=
  match op with
  | OpExecute block => (execute env block s).2
  | OpOnBlockReceive data peerId => (onBlockReceive env fuel data peerId s).2
  | OpStop => (stop s).2
  | OpDeleteLastBlock options => (_deleteLastBlock env options s).2
  | OpExecuteValidated block options => (_executeValidated env block options s).2
  | OpVerify block => (_verify env block s).2
  end.

Definition performAll (env : Collaborators) (fuel : nat) (ops : list Operation)
    (s : State) : State :=
  fold_left (fun s op => perform env fuel op s) ops s.

(** ** Running the methods *)

(** The broadcast step of [_executeValidated]. *)
Definition broadcast (block : Block) (options : ExecuteOptions) (s : State) : State :=
  if negb (truthy (skipBroadcast options))
  then add_effect (Emit CONSENSUS_EVENT_BLOCK_BROADCAST block)
         (add_effect (NetworkSend block) s)
  else s.

(** ** Sample collaborators and states *)

Definition sampleHeader (i : Bytes) (h : Z) (prev : Bytes) : BlockHeader :=
  {| h_id := i; h_version := 2; h_height := h; h_timestamp := 10 * h;
     h_previousBlockID := prev; h_generatorAddress := "generator";
     h_maxHeightPrevoted := 0 |}.

Definition sampleBlock (i : Bytes) (h : Z) (prev : Bytes) : Block :=
  {| header := sampleHeader i h prev; payload := []; assets := [] |}.

Definition block99 : Block := sampleBlock "H99" 99 "H98".
Definition block100 : Block := sampleBlock "H100" 100 "H99".
Definition block100' : Block := sampleBlock "X100" 100 "H99".
Definition block101 : Block := sampleBlock "H101" 101 "H100".

Definition chain100 : Chain :=
  {| lastBlock := block100; previousBlocks := [block99];
     finalizedHeight := 98; tempBlocks := [] |}.

Definition state100 : State :=
  {| _chain := chain100; _stop := false; _mutex := false; isActive := false;
     trace := []; calls := 0 |}.

(** Collaborators that never throw: the BFT API reports [mhp], fork choice
    answers [status], every post decodes to [decoded], the synchronizer runs
    [prog]. *)
Definition agreeable (mhp : Z) (status : ForkStatus) (decoded : Block)
    (prog : SyncProg) : Collaborators :=
  {| stateMachine_verifyBlock := fun _ _ _ => None;
     stateMachine_executeBlock := fun _ _ _ => None;
     bftAPI_getBFTHeights := fun _ _ _ => inr mhp;
     chain_verifyBlock := fun _ _ _ => None;
     db_write := fun _ _ _ => None;
     forkChoice := fun _ _ _ => status;
     codec_decode := fun bytes => inr bytes;
     Block_fromBytes := fun _ => inr decoded;
     synchronizer_run := fun _ _ _ _ => prog |}.

(** The same, but the state machine refuses to execute the block [bad]. *)
Definition rejecting (bad : Bytes) (mhp : Z) (status : ForkStatus)
    (decoded : Block) : Collaborators :=
  {| stateMachine_verifyBlock := fun _ _ _ => None;
     stateMachine_executeBlock := fun _ b _ =>
       if String.eqb (h_id (header b)) bad
       then Some (JsErrorOf "Invalid transaction")
       else None;
     bftAPI_getBFTHeights := fun _ _ _ => inr mhp;
     chain_verifyBlock := fun _ _ _ => None;
     db_write := fun _ _ _ => None;
     forkChoice := fun _ _ _ => status;
     codec_decode := fun bytes => inr bytes;
     Block_fromBytes := fun _ => inr decoded;
     synchronizer_run := fun _ _ _ _ => SyncReturn |}.

(** ** The finalized height *)

Definition fh_le (s s' : State) : Prop :=
  (finalizedHeight (_chain s) <= finalizedHeight (_chain s'))%Z.

(** ** The tie-break swap *)

(** The state in which the tie-break branch starts verifying: the mutex is
    held, fork choice has been consulted, the branch has logged and emitted
    FORK_DETECTED. *)
Definition tieBreakEntry (block : Block) (s : State) : State :=
  add_effect (Emit CONSENSUS_EVENT_FORK_DETECTED block)
    (add_effect (Log LInfo "Received tie breaking block")
       (next_call
          (add_effect (Log LDebug "Starting to process block")
             (set_mutex true s)))).

Definition restoreOptions : ExecuteOptions :=
  {| skipBroadcast := Some true; removeFromTempTable := None |}.

Definition restoreLog : Effect :=
  Log LError "Failed to apply newly received block. restoring previous block.".

(** What [runExclusive] makes of the way its body ended: the mutex is given
    back when the body returned or threw. *)
Definition released {A} (r : Outcome A * State) : Outcome A * State :=
  match r with
  | (Returned a, s') => (Returned a, set_mutex false s')
  | (Thrown e, s') => (Thrown e, set_mutex false s')
  | (Pending, s') => (Pending, s')
  | (OutOfFuel, s') => (OutOfFuel, s')
  end.

(** The tie-break branch of [_execute] from [_verify] on. *)
Definition tieBreakSwap (env : Collaborators) (block previousLastBlock : Block)
  : M unit :=
  bind (_verify env block)
    (fun _ =>
       bind (_deleteBlock env previousLastBlock false)
         (fun _ =>
            try_catch (bind (_executeValidated env block no_options)
                         (fun _ => ret tt))
              (fun _ =>
                 bind (effect restoreLog)
                   (fun _ =>
                      bind (_executeValidated env previousLastBlock restoreOptions)
                        (fun _ => ret tt))))).

(** ** Deleting at or below the finalized height *)

Definition deleteBelowFinalized : Exception :=
  JsErrorOf "Can not delete block below or same as finalized height".

Definition finalizedChain : Chain :=
  {| lastBlock := block100; previousBlocks := [block99];
     finalizedHeight := 100; tempBlocks := [] |}.

Definition finalizedState : State :=
  {| _chain := finalizedChain; _stop := false; _mutex := false; isActive := false;
     trace := []; calls := 0 |}.

(** ** The synchronisation supervisor *)

(** A synchronizer that asks for a penalty and a restart on its first run,
    for a plain restart on its second, and gives up on the third. *)
Definition flakySync (n : nat) : SyncProg :=
  match n with
  | 0 => SyncThrow {| cls := ApplyPenaltyAndRestartError; message := None |}
  | 1 => SyncThrow {| cls := RestartError; message := None |}
  | _ => SyncThrow {| cls := AbortError; message := Some "No common block" |}
  end.

Definition flaky : Collaborators :=
  {| stateMachine_verifyBlock := fun _ _ _ => None;
     stateMachine_executeBlock := fun _ _ _ => None;
     bftAPI_getBFTHeights := fun _ _ _ => inr 0%Z;
     chain_verifyBlock := fun _ _ _ => None;
     db_write := fun _ _ _ => None;
     forkChoice := fun _ _ _ => DIFFERENT_CHAIN;
     codec_decode := fun bytes => inr bytes;
     Block_fromBytes := fun _ => inr block101;
     synchronizer_run := fun n _ _ _ => flakySync n |}.

(** ** The stop flag *)

(** The state [stop()] leaves when the mutex was free: the flag is set and
    the mutex is held for good. *)
Definition stopped100 : State := (stop state100).2.

(** ** Advertising the new tip *)

(** The node infos sent so far, oldest first. *)
Fixpoint nodeInfos (t : list Effect) : list NodeInfo :=
  match t with
  | [] => []
  | ApplyNodeInfo i :: t' => i :: nodeInfos t'
  | _ :: t' => nodeInfos t'
  end.

Definition nodeInfoOf (block : Block) : NodeInfo :=
  {| ni_height := h_height (header block);
     ni_lastBlockID := h_id (header block);
     ni_maxHeightPrevoted := 0;
     ni_blockVersion := h_version (header block) |}.

(** Where the valid-block branch starts verifying. *)
Definition validEntry (s : State) : State :=
  add_effect (Log LDebug "Processing valid block")
    (next_call
       (add_effect (Log LDebug "Starting to process block")
          (set_mutex true s))).

Definition same_nodeInfos (s s' : State) : Prop :=
  nodeInfos (trace s') = nodeInfos (trace s).

(** A synchronizer that applies block 101 through the BlockExecutor. *)
Definition syncOneBlock : SyncProg :=
  SyncExecuteValidated block101
    {| skipBroadcast := Some true; removeFromTempTable := Some true |}
    (fun _ _ => SyncReturn).

(** ** The block version *)

(** A block of version 1 at height 101. *)
Definition oldVersionBlock : Block :=
  {| header :=
       {| h_id := "V1"; h_version := 1; h_height := 101; h_timestamp := 1010;
          h_previousBlockID := "H100"; h_generatorAddress := "generator";
          h_maxHeightPrevoted := 0 |};
     payload := []; assets := [] |}.

(** What [_verify] throws at a block of another version. *)
Definition versionError : Exception :=
  {| cls := ApplyPenaltyError; message := Some "Block version must be 2" |}.

Definition invalidBlockLog : Effect :=
  Log LWarn "Received post block broadcast request with invalid block".

(** ** Receiving the tip again *)

(** What the fork-choice rule asks of the slot oracle and of the receive
    times kept with the headers. *)
Record Slots := {
  slot_of : Z -> Z;
  current_slot : Z;
  received_after_slot : BlockHeader -> bool
}.

(** Modelled from the spec: [forkChoice] (fork_choice/fork_choice_rule is not
    among the sources), section 4.1. "Classify into exactly one of:
    IDENTICAL_BLOCK: H.id == T.id. DOUBLE_FORGING: H.height == T.height,
    H.previousBlockID == T.previousBlockID, H.generatorAddress ==
    T.generatorAddress, H.id <> T.id. TIE_BREAK: H.height == T.height, same
    slot, but slot_of(H.timestamp) <= current_slot and T was received later
    than its own slot. DIFFERENT_CHAIN: H.maxHeightPrevoted >
    T.maxHeightPrevoted, or equal prevoted heights and H.height > T.height.
    VALID_BLOCK: H.height == T.height + 1 and H.previousBlockID == T.id.
    DISCARD: anything else. [They] are evaluated in the order listed; the
    first matching rule wins." *)
Definition forkChoice_rule (slots : Slots) (H T : BlockHeader) : ForkStatus :=
  if String.eqb (h_id H) (h_id T) then IDENTICAL_BLOCK
  else if (h_height H =? h_height T)%Z
          && String.eqb (h_previousBlockID H) (h_previousBlockID T)
          && String.eqb (h_generatorAddress H) (h_generatorAddress T)
  then DOUBLE_FORGING
  else if (h_height H =? h_height T)%Z
          && (slot_of slots (h_timestamp H) =? slot_of slots (h_timestamp T))%Z
          && (slot_of slots (h_timestamp H) <=? current_slot slots)%Z
          && received_after_slot slots T
  then TIE_BREAK
  else if (h_maxHeightPrevoted H >? h_maxHeightPrevoted T)%Z
          || ((h_maxHeightPrevoted H =? h_maxHeightPrevoted T)%Z
              && (h_height H >? h_height T)%Z)
  then DIFFERENT_CHAIN
  else if (h_height H =? h_height T + 1)%Z
          && String.eqb (h_previousBlockID H) (h_id T)
  then VALID_BLOCK
  else DISCARD.

(** The collaborators [env] with [forkChoice] following the rule; the slot
    oracle may change from call to call. *)
Definition with_forkChoice_rule (slots : nat -> Slots) (env : Collaborators)
  : Collaborators :=
  {| stateMachine_verifyBlock := stateMachine_verifyBlock env;
     stateMachine_executeBlock := stateMachine_executeBlock env;
     bftAPI_getBFTHeights := bftAPI_getBFTHeights env;
     chain_verifyBlock := chain_verifyBlock env;
     db_write := db_write env;
     forkChoice := fun n => forkChoice_rule (slots n);
     codec_decode := codec_decode env;
     Block_fromBytes := Block_fromBytes env;
     synchronizer_run := synchronizer_run env |}.

(** The trace without the logger calls: events and network calls. *)
Fixpoint withoutLogs (t : list Effect) : list Effect :=
  match t with
  | [] => []
  | Log _ _ :: t' => withoutLogs t'
  | e :: t' => e :: withoutLogs t'
  end.

(** Two states agree on everything but the log lines and the call counter. *)
Definition sameButLogs (s s' : State) : Prop :=
  _chain s' = _chain s /\ _stop s' = _stop s /\ _mutex s' = _mutex s /\
  isActive s' = isActive s /\ withoutLogs (trace s') = withoutLogs (trace s).

Definition everySlot : nat -> Slots :=
  fun _ => {| slot_of := fun t => (t / 10)%Z; current_slot := 11;
              received_after_slot := fun _ => false |}.

(** A tip with prevoted height 5 and a block on top of it with prevoted
    height 4, which the rule classifies VALID_BLOCK. *)
Definition tip100 : Block :=
  {| header :=
       {| h_id := "H100"; h_version := 2; h_height := 100; h_timestamp := 1000;
          h_previousBlockID := "H99"; h_generatorAddress := "generatorA";
          h_maxHeightPrevoted := 5 |};
     payload := []; assets := [] |}.

Definition next101 : Block :=
  {| header :=
       {| h_id := "H101"; h_version := 2; h_height := 101; h_timestamp := 1010;
          h_previousBlockID := "H100"; h_generatorAddress := "generatorB";
          h_maxHeightPrevoted := 4 |};
     payload := []; assets := [] |}.

Definition tipState : State :=
  {| _chain := {| lastBlock := tip100; previousBlocks := [block99];
                  finalizedHeight := 98; tempBlocks := [] |};
     _stop := false; _mutex := false; isActive := false; trace := []; calls := 0 |}.

(** ** The remaining methods *)

(** [isSynced(height, maxHeightPrevoted)], against the tip of the chain. *)
Definition isSynced (height maxHeightPrevoted : Z) (s : State) : bool :=
  let lastBlockHeader := header (lastBlock (_chain s)) in
  if (h_version lastBlockHeader =? 0)%Z
  then (height <=? h_height lastBlockHeader)%Z
       && (maxHeightPrevoted <=? h_height lastBlockHeader)%Z
  else (maxHeightPrevoted <? h_maxHeightPrevoted lastBlockHeader)%Z
       || ((maxHeightPrevoted =? h_maxHeightPrevoted lastBlockHeader)%Z
           && (height <? h_height lastBlockHeader)%Z).

(** The handler [init] registers for NETWORK_EVENT_POST_BLOCK:
    [this.onBlockReceive(data, peerId).catch(err => logger.error(...))]. *)
Definition postBlockHandler (env : Collaborators) (fuel : nat) (data : PostData)
    (peerId : string) : M unit :=
  try_catch (onBlockReceive env fuel data peerId)
    (fun err => effect (Log LError "Fail to handle received block")).

(** ** Reading a post *)

(** The three ways the envelope checks of [onBlockReceive] end. *)
Inductive Post :=
| NotBuffer
| Undecodable (warning : string) (error : Exception)
| Decoded (block : Block).

Definition readPost (env : Collaborators) (data : PostData) : Post :=
  match data with
  | NotABuffer => NotBuffer
  | BufferData bytes =>
      match codec_decode env bytes with
      | inl error =>
          Undecodable "Received post block broadcast request in unexpected format"
            error
      | inr blockBytes =>
          match Block_fromBytes env blockBytes with
          | inl error =>
              Undecodable
                "Received post block broadcast request in not decodable format"
                error
          | inr block => Decoded block
          end
      end
  end.

(** ** What a call adds to the trace *)

(** [s'] continues the trace of [s] with effects that all satisfy [P]. *)
Definition grows (P : Effect -> Prop) (s s' : State) : Prop :=
  exists added, trace s' = trace s ++ added /\ Forall P added.

(** Every penalty among the effects is one of 100 points against [peerId]. *)
Definition penalisesOnly (peerId : string) (e : Effect) : Prop :=
  match e with
  | ApplyPenaltyOnPeer p n => p = peerId /\ n = 100%Z
  | _ => True
  end.

(** The penalties in a trace, oldest first. *)
Fixpoint penalties (t : list Effect) : list (string * Z) :=
  match t with
  | [] => []
  | ApplyPenaltyOnPeer p n :: t' => (p, n) :: penalties t'
  | _ :: t' => penalties t'
  end.

(** The state in which [_execute] has taken the mutex, logged and consulted
    fork choice. *)
Definition classified (s : State) : State :=
  next_call (add_effect (Log LDebug "Starting to process block") (set_mutex true s)).

(** ** More sample collaborators *)

(** A tip of version 0, as a legacy chain ends. *)
Definition legacyTip : Block :=
  {| header :=
       {| h_id := "L100"; h_version := 0; h_height := 100; h_timestamp := 1000;
          h_previousBlockID := "L99"; h_generatorAddress := "generator";
          h_maxHeightPrevoted := 0 |};
     payload := []; assets := [] |}.

Definition legacyState : State :=
  {| _chain := {| lastBlock := legacyTip; previousBlocks := [];
                  finalizedHeight := 0; tempBlocks := [] |};
     _stop := false; _mutex := false; isActive := false; trace := []; calls := 0 |}.

(** Collaborators whose codec rejects every post. *)
Definition garbled : Collaborators :=
  {| stateMachine_verifyBlock := fun _ _ _ => None;
     stateMachine_executeBlock := fun _ _ _ => None;
     bftAPI_getBFTHeights := fun _ _ _ => inr 0%Z;
     chain_verifyBlock := fun _ _ _ => None;
     db_write := fun _ _ _ => None;
     forkChoice := fun _ _ _ => DISCARD;
     codec_decode := fun _ => inl (JsErrorOf "Invalid wire type");
     Block_fromBytes := fun _ => inr block101;
     synchronizer_run := fun _ _ _ _ => SyncReturn |}.

(** Collaborators whose chain refuses to verify any block. *)
Definition unverifiable (status : ForkStatus) (decoded : Block) : Collaborators :=
  {| stateMachine_verifyBlock := fun _ _ _ => None;
     stateMachine_executeBlock := fun _ _ _ => None;
     bftAPI_getBFTHeights := fun _ _ _ => inr 0%Z;
     chain_verifyBlock := fun _ _ _ =>
       Some {| cls := JsError; message := Some "Invalid signature" |};
     db_write := fun _ _ _ => None;
     forkChoice := fun _ _ _ => status;
     codec_decode := fun bytes => inr bytes;
     Block_fromBytes := fun _ => inr decoded;
     synchronizer_run := fun _ _ _ _ => SyncReturn |}.

(** A synchronizer that starts by deleting the tip. *)
Definition syncDeletesTip : SyncProg :=
  SyncDeleteLastBlock {| saveTempBlock := Some true |} (fun _ _ => SyncReturn).

(** A synchronizer that asks twice for a penalty and a restart and then
    gives up. *)
Definition penalisingSync : Collaborators :=
  {| stateMachine_verifyBlock := fun _ _ _ => None;
     stateMachine_executeBlock := fun _ _ _ => None;
     bftAPI_getBFTHeights := fun _ _ _ => inr 0%Z;
     chain_verifyBlock := fun _ _ _ => None;
     db_write := fun _ _ _ => None;
     forkChoice := fun _ _ _ => DIFFERENT_CHAIN;
     codec_decode := fun bytes => inr bytes;
     Block_fromBytes := fun _ => inr block101;
     synchronizer_run := fun n _ _ _ =>
       if (n <=? 2)%nat
       then SyncThrow {| cls := ApplyPenaltyAndRestartError; message := None |}
       else SyncThrow {| cls := AbortError; message := None |} |}.

(** ** The block version, branch by branch *)

(** A block of version 1 at height 99, below the tip of [chain100]. *)
Definition staleOldVersionBlock : Block :=
  {| header :=
       {| h_id := "V99"; h_version := 1; h_height := 99; h_timestamp := 990;
          h_previousBlockID := "H98"; h_generatorAddress := "generator";
          h_maxHeightPrevoted := 0 |};
     payload := []; assets := [] |}.

(** A synchronizer that starts by verifying the received block through the
    BlockExecutor and does not catch what [verify] throws. *)
Definition verifyingSync (block : Block) : SyncProg :=
  SyncVerify block
    (fun r _ => match r with Some e => SyncThrow e | None => SyncReturn end).


End Consensus.

Module ConsensusStateStore.

(** ** Data *)

(** A [Buffer] is an object: [===] and a [Set] tell two buffers apart by
    reference, [equals] and a [BufferMap] by contents. *)
Record Buffer := { ref : nat; bytes : string }.

(** [a === b] on buffers. *)
Definition same_object (a b : Buffer) : bool := Nat.eqb (ref a) (ref b).

(** [a.equals(b)] *)
Definition equals (a b : Buffer) : bool := String.eqb (bytes a) (bytes b).

(** [StateDiff]: keys are database keys, kept by their contents. *)
Record StateDiff := {
  updated : list (string * Buffer);
  created : list string;
  deleted : list string
}.

(** The puts of a [BatchChain], oldest first; a value may be [undefined]. *)
Definition Batch := list (string * option Buffer).

(** The fields of the class. A [BufferMap] is keyed by the contents of the
    key; a [Set<Buffer>] keeps its members in insertion order and holds an
    object once. *)
Record Store := {
  _data : gmap string Buffer;
  _originalData : gmap string Buffer;
  _updatedKeys : list Buffer;
  _originalUpdatedKeys : list Buffer;
  _initialValue : gmap string Buffer
}.

(** [set.add(key)] *)
Definition Set_add (key : Buffer) (keys : list Buffer) : list Buffer :=
  if existsb (same_object key) keys then keys else keys ++ [key].

(** [new ConsensusStateStore(dataAccess)] *)
Definition empty_store : Store :=
  {| _data := ∅; _originalData := ∅; _updatedKeys := [];
     _originalUpdatedKeys := []; _initialValue := ∅ |}.

(** [bufferMap.clone()]: a new map over a deep copy of the entries: the same
    keys, and under each a new Buffer with the contents of the old one.
    [copies] is the heap's choice of the new objects: the reference of the
    copy it makes of the value under each key. *)
Definition clone (copies : string -> nat) (m : gmap string Buffer)
  : gmap string Buffer :=
  map_imap (fun contents value =>
              Some {| ref := copies contents; bytes := bytes value |}) m.

(** The calls on a store. The snapshot methods allocate, so they come with
    the references of the objects they are given. *)
Inductive Call :=
| Get (key : Buffer)
| Set_ (key value : Buffer)
| CreateSnapshot (copies : string -> nat)
| RestoreSnapshot (copies : string -> nat).

(** ** The methods *)

Section Methods.

(** The constants of lisk-chain the class imports (constants.ts and
    data_access/constants.ts are not among the sources), and the consensus
    state in the database as [dataAccess.getConsensusState] reads it. *)
Variable CONSENSUS_STATE_FINALIZED_HEIGHT_KEY : Buffer.
Variable DB_KEY_CONSENSUS_STATE : string.
Variable getConsensusState : string -> option Buffer.

(** [concatKeys(DB_KEY_CONSENSUS_STATE, key)] *)
Definition concatKeys (prefix : string) (key : Buffer) : string :=
  prefix +:+ bytes key.

(** [this._data.clone()] copies the cached values; [new Set(...)] copies the
    set and keeps its members. *)
Definition createSnapshot (copies : string -> nat) (st : Store) : Store :=
  {| _data := _data st; _originalData := clone copies (_data st);
     _updatedKeys := _updatedKeys st; _originalUpdatedKeys := _updatedKeys st;
     _initialValue := _initialValue st |}.

Definition restoreSnapshot (copies : string -> nat) (st : Store) : Store :=
  {| _data := clone copies (_originalData st); _originalData := _originalData st;
     _updatedKeys := _originalUpdatedKeys st;
     _originalUpdatedKeys := _originalUpdatedKeys st;
     _initialValue := _initialValue st |}.

Definition get (key : Buffer) (st : Store) : option Buffer * Store :=
  match _data st !! bytes key with
  | Some value => (Some value, st)
  | None =>
      match getConsensusState (bytes key) with
      | None => (None, st)
      | Some dbValue =>
          let initialValue :=
            if negb (same_object key CONSENSUS_STATE_FINALIZED_HEIGHT_KEY)
            then <[bytes key := dbValue]> (_initialValue st)
            else _initialValue st in
          let data := <[bytes key := dbValue]> (_data st) in
          (data !! bytes key,
           {| _data := data; _originalData := _originalData st;
              _updatedKeys := _updatedKeys st;
              _originalUpdatedKeys := _originalUpdatedKeys st;
              _initialValue := initialValue |})
      end
  end.

Definition set (key value : Buffer) (st : Store) : Store :=
  {| _data := <[bytes key := value]> (_data st);
     _originalData := _originalData st;
     _updatedKeys := Set_add key (_updatedKeys st);
     _originalUpdatedKeys := _originalUpdatedKeys st;
     _initialValue := _initialValue st |}.

(** The loop of [finalize] over [Array.from(this._updatedKeys)]. The result
    is [None] when the loop throws: [initialValue.equals(undefined)] is a
    TypeError. *)
Fixpoint finalize_keys (st : Store) (keys : list Buffer)
    (acc : StateDiff * Batch) : option (StateDiff * Batch) :=
  match keys with
  | [] => Some acc
  | key :: keys' =>
      let '(stateDiff, batch) := acc in
      let dbKey := concatKeys DB_KEY_CONSENSUS_STATE key in
      let updatedValue := _data st !! bytes key in
      let batch' := batch ++ [(dbKey, updatedValue)] in
      if same_object key CONSENSUS_STATE_FINALIZED_HEIGHT_KEY
      then finalize_keys st keys' (stateDiff, batch')
      else
        match _initialValue st !! bytes key with
        | Some initialValue =>
            match updatedValue with
            | None => None
            | Some updatedValue =>
                if negb (equals initialValue updatedValue)
                then finalize_keys st keys'
                       ({| updated := updated stateDiff ++ [(dbKey, initialValue)];
                           created := created stateDiff;
                           deleted := deleted stateDiff |}, batch')
                else finalize_keys st keys' (stateDiff, batch')
            end
        | None =>
            finalize_keys st keys'
              ({| updated := updated stateDiff;
                  created := created stateDiff ++ [dbKey];
                  deleted := deleted stateDiff |}, batch')
        end
  end.

Definition finalize (batch : Batch) (st : Store) : option (StateDiff * Batch) :=
  let stateDiff := {| updated := []; created := []; deleted := [] |} in
  if Nat.eqb (length (_updatedKeys st)) 0 then Some (stateDiff, batch)
  else finalize_keys st (_updatedKeys st) (stateDiff, batch).

Definition run (op : Call) (st : Store) : Store :=
  match op with
  | Get key => (get key st).2
  | Set_ key value => set key value st
  | CreateSnapshot copies => createSnapshot copies st
  | RestoreSnapshot copies => restoreSnapshot copies st
  end.

Definition runAll (ops : list Call) (st : Store) : Store :=
  fold_left (fun st op => run op st) ops st.

(** The keys a call names. *)
Definition key_of (op : Call) : list Buffer :=
  match op with
  | Get key | Set_ key _ => [key]
  | CreateSnapshot _ | RestoreSnapshot _ => []
  end.

(** Every key with the contents of the finalized-height key is the constant
    itself. *)
Definition by_constant (key : Buffer) : Prop :=
  bytes key = bytes CONSENSUS_STATE_FINALIZED_HEIGHT_KEY ->
  ref key = ref CONSENSUS_STATE_FINALIZED_HEIGHT_KEY.

(** The diff says nothing about the database key [dbKey]. *)
Definition not_in_diff (dbKey : string) (diff : StateDiff) : Prop :=
  ~ In dbKey (map fst (updated diff)) /\ ~ In dbKey (created diff) /\
  ~ In dbKey (deleted diff).

(** What the operations keep true when every key with the contents of the
    constant is the constant. *)
Definition by_constant_store (st : Store) : Prop :=
  _initialValue st !! bytes CONSENSUS_STATE_FINALIZED_HEIGHT_KEY = None /\
  Forall by_constant (_updatedKeys st) /\
  Forall by_constant (_originalUpdatedKeys st) /\
  Forall (fun key => is_Some (_data st !! bytes key)) (_updatedKeys st) /\
  Forall (fun key => is_Some (_originalData st !! bytes key))
    (_originalUpdatedKeys st).

End Methods.

(** ** A store whose database holds a finalized height *)

Definition FINALIZED_HEIGHT_KEY : Buffer :=
  {| ref := 0; bytes := "finalizedHeight" |}.

(** A buffer with the same contents, allocated by a caller. *)
Definition sameBytesKey : Buffer :=
  {| ref := 1; bytes := "finalizedHeight" |}.

(** The finalized heights 98 and 100 as stored, and one more entry. *)
Definition height98 : Buffer := {| ref := 2; bytes := "98" |}.
Definition height100 : Buffer := {| ref := 3; bytes := "100" |}.
Definition validatorsKey : Buffer := {| ref := 4; bytes := "validators" |}.
Definition validatorsValue : Buffer := {| ref := 5; bytes := "v1" |}.

(** The database holds finalized height 98 and nothing else. *)
Definition db98 (key : string) : option Buffer :=
  if String.eqb key "finalizedHeight" then Some height98 else None.

(** A heap that gives the copies made by one [clone] the references from
    [n] on. *)
Definition copiesAt (n : nat) (contents : string) : nat :=
  if String.eqb contents "finalizedHeight" then n else S n.

(** ** Stores the operations reach *)

(** Every updated key has a value in the cache, now and in the snapshot. *)
Definition covered (st : Store) : Prop :=
  Forall (fun key => is_Some (_data st !! bytes key)) (_updatedKeys st) /\
  Forall (fun key => is_Some (_originalData st !! bytes key))
    (_originalUpdatedKeys st).

(** Every cached initial value is the one the database holds. *)
Definition initial_from (db : string -> option Buffer) (st : Store) : Prop :=
  forall contents value,
    _initialValue st !! contents = Some value -> db contents = Some value.

Definition isSet (op : Call) : bool :=
  match op with Set_ _ _ => true | _ => false end.

Definition isGetOrSet (op : Call) : bool :=
  match op with Get _ | Set_ _ _ => true | _ => false end.

Definition emptyDiff : StateDiff := {| updated := []; created := []; deleted := [] |}.

(** Two caches hold values with the same contents under the same keys. *)
Definition same_contents (m m' : gmap string Buffer) : Prop :=
  forall contents, bytes <$> m !! contents = bytes <$> m' !! contents.

(** The puts of a batch, each with the contents of its value. *)
Definition contents_of (batch : Batch) : list (string * option string) :=
  map (fun put => (put.1, bytes <$> put.2)) batch.

(** The put [finalize] makes for an updated key. *)
Definition putOf (prefix : string) (st : Store) (key : Buffer)
  : string * option Buffer :=
  (concatKeys prefix key, _data st !! bytes key).

(** ** More sample stores *)

(** The database holds finalized height 98 and a validators entry. *)
Definition db2 (key : string) : option Buffer :=
  if String.eqb key "finalizedHeight" then Some height98
  else if String.eqb key "validators" then Some validatorsValue
  else None.

(** Another buffer with the contents of [validatorsKey]. *)
Definition validatorsKey' : Buffer := {| ref := 6; bytes := "validators" |}.
Definition validatorsValue' : Buffer := {| ref := 7; bytes := "v2" |}.

End ConsensusStateStore.

(** * Properties of the consensus coordinator *)

Module ConsensusProperties.

Import Consensus.

(** ** Frame rules

    A relation between the state before and the state after a call that every
    step of the coordinator respects is respected by the whole call, however
    it ends. It is used below with "the finalized height did not decrease"
    and with "no node info was sent". *)

Section Frame.

Variable env : Collaborators.
Variable R : State -> State -> Prop.

Hypothesis R_refl : forall s, R s s.
Hypothesis R_trans : forall s1 s2 s3, R s1 s2 -> R s2 s3 -> R s1 s3.
Hypothesis R_mutex : forall b s, R s (set_mutex b s).
Hypothesis R_isActive : forall b s, R s (set_isActive b s).
Hypothesis R_call : forall s, R s (next_call s).
Hypothesis R_stop : forall b s, R s (set_stop b s).
Hypothesis R_effect :
  forall e s, (forall i, e <> ApplyNodeInfo i) -> R s (add_effect e s).
Hypothesis R_chain :
  forall c s, (finalizedHeight (_chain s) <= finalizedHeight c)%Z ->
              R s (set_chain c s).

Local Abbreviation frame := (framed R).

Lemma frame_ret {A} (a : A) : frame (ret a).
Proof. intros s. apply R_refl. Qed.

Lemma frame_throw {A} (e : Exception) : frame (@throw A e).
Proof. intros s. apply R_refl. Qed.

Lemma frame_gets {A} (f : State -> A) : frame (gets f).
Proof. intros s. apply R_refl. Qed.

Lemma frame_call : frame call.
Proof. intros s. apply R_call. Qed.

Lemma frame_effect e : (forall i, e <> ApplyNodeInfo i) -> frame (effect e).
Proof. intros H s. now apply R_effect. Qed.

Lemma frame_bind {A B} (m : M A) (k : A -> M B) :
  frame m -> (forall a, frame (k a)) -> frame (bind m k).
Proof.
  intros Hm Hk s. unfold bind. specialize (Hm s).
  destruct (m s) as [[a|e| |] s1]; simpl in *; trivial.
  eapply R_trans; [exact Hm | apply Hk].
Qed.

Lemma frame_try_catch {A} (m : M A) (h : Exception -> M A) :
  frame m -> (forall e, frame (h e)) -> frame (try_catch m h).
Proof.
  intros Hm Hh s. unfold try_catch. specialize (Hm s).
  destruct (m s) as [[a|e| |] s1]; simpl in *; trivial.
  eapply R_trans; [exact Hm | apply Hh].
Qed.

Lemma frame_settle {A} (m : M A) : frame m -> frame (settle m).
Proof.
  intros Hm s. unfold settle. specialize (Hm s).
  destruct (m s) as [[a|e| |] s1]; simpl in *; trivial.
Qed.

Lemma frame_runExclusive {A} (m : M A) : frame m -> frame (runExclusive m).
Proof.
  intros Hm s. unfold runExclusive.
  destruct (_mutex s); [apply R_refl|].
  specialize (Hm (set_mutex true s)).
  destruct (m (set_mutex true s)) as [[a|e| |] s1]; simpl in *;
    (eapply R_trans; [apply (R_mutex true)|]); trivial;
    (eapply R_trans; [exact Hm|apply R_mutex]).
Qed.

Lemma frame_acquire : frame acquire.
Proof.
  intros s. unfold acquire. destruct (_mutex s); simpl; [apply R_refl|apply R_mutex].
Qed.

Lemma frame_if {A} (b : bool) (m1 m2 : M A) :
  frame m1 -> frame m2 -> frame (if b then m1 else m2).
Proof. now destruct b. Qed.

Ltac frame_step :=
  lazymatch goal with
  | |- frame (ret _) => apply frame_ret
  | |- frame (throw _) => apply frame_throw
  | |- frame (gets _) => apply frame_gets
  | |- frame call => apply frame_call
  | |- frame acquire => apply frame_acquire
  | |- frame (effect _) => apply frame_effect; congruence
  | |- frame (penalise _) => apply frame_effect; congruence
  | |- frame (bind _ _) => apply frame_bind; [|intros ?]
  | |- frame (try_catch _ _) => apply frame_try_catch; [|intros ?]
  | |- frame (settle _) => apply frame_settle
  | |- frame (runExclusive _) => apply frame_runExclusive
  | |- frame (if _ then _ else _) => apply frame_if
  end.

Lemma frame_check f block : frame (check f block).
Proof.
  unfold check. repeat frame_step.
  match goal with |- frame (match ?x with _ => _ end) => destruct x end;
    frame_step.
Qed.

Lemma frame_getBFTHeights block : frame (getBFTHeights env block).
Proof.
  unfold getBFTHeights. repeat frame_step.
  match goal with |- frame (match ?x with _ => _ end) => destruct x end;
    frame_step.
Qed.

Lemma frame_removeBlock block saveTemp : frame (removeBlock env block saveTemp).
Proof.
  unfold removeBlock.
  apply frame_bind; [apply frame_call|]. intros n s0.
  unfold bind, gets, throw, modify.
  destruct (db_write env n block (_chain s0)); simpl; [apply R_refl|].
  destruct (previousBlocks (_chain s0)); simpl; [apply R_refl|].
  apply R_chain. simpl. lia.
Qed.

Lemma frame_executeValidated block options :
  frame (_executeValidated env block options).
Proof.
  unfold _executeValidated.
  apply frame_bind; [apply frame_check|]. intros _.
  apply frame_bind; [repeat frame_step|]. intros _.
  apply frame_bind; [apply frame_check|]. intros _.
  apply frame_bind; [apply frame_getBFTHeights|]. intros mhp s0.
  unfold bind at 1, gets at 1.
  set (fh' := if (mhp >? _)%Z then _ else _).
  assert (Hfh : (finalizedHeight (_chain s0) <= fh')%Z).
  { subst fh'. destruct (Z.gtb_spec mhp (finalizedHeight (_chain s0))); lia. }
  revert Hfh. generalize fh'. clear fh'. intros fh' Hfh.
  assert (Hsave : R s0 (saveBlock env block fh'
            (or_default (removeFromTempTable options) false) s0).2).
  { unfold saveBlock, bind, call, gets, modify, throw. simpl.
    destruct (db_write env (calls s0) block (_chain s0)); simpl.
    - apply R_call.
    - eapply R_trans; [apply R_call|]. apply R_chain. simpl. exact Hfh. }
  unfold bind at 1.
  destruct (saveBlock env block fh' _ s0) as [[a|e| |] s1]; simpl in *; trivial.
  eapply R_trans; [exact Hsave|].
  apply R_effect. congruence.
Qed.

Lemma frame_verify block : frame (_verify env block).
Proof.
  unfold _verify.
  apply frame_if; [frame_step|].
  apply frame_try_catch; [apply frame_check|]. intros ?. frame_step.
Qed.

Lemma frame_deleteBlock block saveTemp : frame (_deleteBlock env block saveTemp).
Proof.
  unfold _deleteBlock.
  apply frame_bind; [frame_step|]. intros c.
  apply frame_if; [frame_step|].
  apply frame_bind; [apply frame_removeBlock|]. intros _. frame_step.
Qed.

Lemma frame_deleteLastBlock options : frame (_deleteLastBlock env options).
Proof.
  unfold _deleteLastBlock.
  apply frame_bind; [frame_step|]. intros stopped.
  apply frame_if; [frame_step|].
  apply frame_runExclusive.
  apply frame_bind; [frame_step|]. intros c.
  apply frame_bind; [frame_step|]. intros _.
  apply frame_deleteBlock.
Qed.

Lemma frame_runMechanism p : frame (runMechanism env p).
Proof.
  induction p as [|e|o k IH|b o k IH|b k IH]; simpl.
  - frame_step.
  - frame_step.
  - apply frame_bind; [apply frame_settle, frame_deleteLastBlock|]. intros r.
    apply frame_bind; [frame_step|]. intros c. apply IH.
  - apply frame_bind; [apply frame_settle, frame_executeValidated|]. intros r.
    apply frame_bind; [frame_step|]. intros c. apply IH.
  - apply frame_bind; [apply frame_settle, frame_verify|]. intros r.
    apply frame_bind; [frame_step|]. intros c. apply IH.
Qed.

Lemma frame_Synchronizer_run block peerID : frame (Synchronizer_run env block peerID).
Proof.
  unfold Synchronizer_run.
  apply frame_bind; [frame_step|]. intros n.
  apply frame_bind; [frame_step|]. intros c.
  apply frame_bind; [intros s; apply R_isActive|]. intros _ s.
  pose proof (frame_runMechanism (synchronizer_run env n block peerID c) s) as H.
  destruct (runMechanism env _ s) as [[a|e| |] s1]; simpl in *; trivial;
    (eapply R_trans; [exact H|apply R_isActive]).
Qed.

Lemma frame_sync fuel block peerID : frame (_sync env fuel block peerID).
Proof.
  induction fuel as [|fuel IH]; simpl.
  - intros s. apply R_refl.
  - apply frame_bind; [frame_step|]. intros stopped.
    apply frame_if; [frame_step|].
    apply frame_try_catch; [apply frame_Synchronizer_run|]. intros e.
    destruct (cls e); repeat frame_step; try apply IH.
Qed.

Lemma frame_execute_generator block : frame (execute env block).
Proof.
  unfold execute. apply frame_runExclusive.
  apply frame_bind; [apply frame_executeValidated|]. intros ?. frame_step.
Qed.

Lemma frame_stop : frame stop.
Proof.
  unfold stop. apply frame_bind; [|intros; apply frame_acquire].
  intros s. apply R_stop.
Qed.

(** Every branch of [_execute] but the one of a valid block. *)
Lemma frame_execute_other fuel block peerID s :
  forkChoice env (calls s) (header block) (header (lastBlock (_chain s)))
    <> VALID_BLOCK ->
  R s (_execute env fuel block peerID s).2.
Proof.
  intros Hfc. unfold _execute. unfold bind at 1, gets at 1.
  destruct (_stop s); [apply R_refl|].
  unfold runExclusive. destruct (_mutex s); [apply R_refl|].
  unfold bind at 1, effect at 1, modify at 1.
  unfold bind at 1, gets at 1. unfold bind at 1, call at 1.
  cbn [calls _chain add_effect set_mutex next_call].
  set (s0 := next_call (add_effect _ (set_mutex true s))).
  assert (Hpre : R s s0).
  { subst s0. apply (R_trans _ (set_mutex true s)); [apply R_mutex|].
    eapply R_trans; [|apply R_call]. apply R_effect. congruence. }
  match goal with
  | |- R s (match ?m s0 with _ => _ end).2 => assert (Hbody : frame m)
  end.
  { destruct (forkChoice env (calls s) (header block) (header (lastBlock (_chain s))));
      try contradiction;
      cbn [includes forkStatusList existsb ForkStatus_eqb orb negb];
      repeat first
        [ apply frame_verify | apply frame_executeValidated | apply frame_deleteBlock
        | apply frame_sync | frame_step ]. }
  specialize (Hbody s0).
  match goal with
  | |- R s (match ?m s0 with _ => _ end).2 =>
      destruct (m s0) as [[a|e| |] s1]
  end; cbn [snd] in *;
    eapply R_trans; try exact Hpre; trivial;
    (eapply R_trans; [exact Hbody|apply R_mutex]).
Qed.

Hypothesis R_nodeInfo : forall i s, R s (add_effect (ApplyNodeInfo i) s).

Lemma frame_execute fuel block peerID : frame (_execute env fuel block peerID).
Proof.
  unfold _execute.
  apply frame_bind; [frame_step|]. intros stopped.
  apply frame_if; [frame_step|].
  apply frame_runExclusive.
  apply frame_bind; [frame_step|]. intros _.
  apply frame_bind; [frame_step|]. intros c.
  apply frame_bind; [frame_step|]. intros n.
  apply frame_if; [repeat frame_step|].
  destruct (forkChoice env n (header block) (header (lastBlock c)));
    repeat first
      [ apply frame_verify | apply frame_executeValidated | apply frame_deleteBlock
      | apply frame_sync | frame_step ].
  intros s. apply R_nodeInfo.
Qed.

Lemma frame_onBlockReceive fuel data peerId :
  frame (onBlockReceive env fuel data peerId).
Proof.
  unfold onBlockReceive.
  apply frame_bind; [frame_step|]. intros syncing.
  apply frame_if; [frame_step|].
  destruct data as [bytes|]; [|repeat frame_step].
  destruct (codec_decode env bytes) as [error|blockBytes]; [repeat frame_step|].
  destruct (Block_fromBytes env blockBytes) as [error|block]; [repeat frame_step|].
  apply frame_try_catch; [apply frame_execute|]. intros error.
  apply frame_bind; [|intros; frame_step].
  destruct (cls error); repeat frame_step.
Qed.

End Frame.

(** ** Running the methods *)

(** Unfolds the promise monad and the reads of the fields. *)
Ltac promise :=
  cbv beta iota zeta delta
    [bind gets ret throw modify effect call try_catch penalise settle
     check getBFTHeights saveBlock removeBlock];
  cbn [fst snd _chain _stop _mutex isActive trace calls set_chain set_stop
       set_mutex set_isActive add_effect next_call].

(** What [_executeValidated] does, by the first collaborator that throws. *)
Lemma executeValidated_unfold env block options s :
  _executeValidated env block options s =
  let n := calls s in
  let c := _chain s in
  match stateMachine_verifyBlock env n block c with
  | Some e => (Thrown e, next_call s)
  | None =>
      let s1 := broadcast block options (next_call s) in
      match stateMachine_executeBlock env (S n) block c with
      | Some e => (Thrown e, next_call s1)
      | None =>
          match bftAPI_getBFTHeights env (S (S n)) block c with
          | inl e => (Thrown e, next_call (next_call s1))
          | inr mhp =>
              let s3 := next_call (next_call (next_call s1)) in
              match db_write env (S (S (S n))) block c with
              | Some e => (Thrown e, s3)
              | None =>
                  (Returned block,
                   add_effect (Emit CONSENSUS_EVENT_BLOCK_NEW block)
                     (set_chain
                        {| lastBlock := block;
                           previousBlocks := lastBlock c :: previousBlocks c;
                           finalizedHeight := Z.max (finalizedHeight c) mhp;
                           tempBlocks :=
                             if or_default (removeFromTempTable options) false
                             then filter (fun b => h_id (header b) ≠ h_id (header block))
                                    (tempBlocks c)
                             else tempBlocks c |} s3))
              end
          end
      end
  end.
Proof.
  unfold _executeValidated, broadcast. promise.
  destruct (stateMachine_verifyBlock _ _ _ _); [reflexivity|].
  destruct (negb _); promise;
    (destruct (stateMachine_executeBlock _ _ _ _); [reflexivity|]); promise;
    (destruct (bftAPI_getBFTHeights _ _ _ _) as [e|mhp]; [reflexivity|]); promise;
    (destruct (db_write _ _ _ _); [reflexivity|]); promise;
    (replace (if (mhp >? finalizedHeight (_chain s))%Z then mhp
              else finalizedHeight (_chain s))
       with (Z.max (finalizedHeight (_chain s)) mhp)
       by (destruct (Z.gtb_spec mhp (finalizedHeight (_chain s))); lia));
    reflexivity.
Qed.

(** ** The finalized height *)

Lemma fh_le_perform env fuel op s : fh_le s (perform env fuel op s).
Proof.
  destruct op; cbn [perform];
    [ apply (frame_execute_generator env fh_le)
    | apply (frame_onBlockReceive env fh_le)
    | apply (frame_stop fh_le)
    | apply (frame_deleteLastBlock env fh_le)
    | apply (frame_executeValidated env fh_le)
    | apply (frame_verify env fh_le) ];
    unfold fh_le; intros; cbn in *; lia.
Qed.

Example executeValidated_finalizes :
  let env := agreeable 100 VALID_BLOCK block101 SyncReturn in
  let r := _executeValidated env block101 no_options state100 in
  r.1 = Returned block101 /\
  lastBlock (_chain r.2) = block101 /\
  finalizedHeight (_chain r.2) = 100%Z /\
  trace r.2 = [NetworkSend block101;
               Emit CONSENSUS_EVENT_BLOCK_BROADCAST block101;
               Emit CONSENSUS_EVENT_BLOCK_NEW block101].
Proof. repeat split; reflexivity. Qed.

(** C3. The finalized height never decreases: whatever sequence of
    operations the coordinator performs (entry points and BlockExecutor
    closures, however each ends), the finalized height afterwards is at least
    the one before; and an [_executeValidated] that returns has saved
    max(previous finalized height, maxHeightPrecommitted of the BFT API),
    while one that throws leaves the chain as it was. *)
Theorem finalizedHeight_non_decreasing (env : Collaborators) (fuel : nat) :
  (forall ops s,
      (finalizedHeight (_chain s)
       <= finalizedHeight (_chain (performAll env fuel ops s)))%Z) /\
  (forall block options s,
      match _executeValidated env block options s with
      | (Returned _, s') =>
          exists mhp,
            bftAPI_getBFTHeights env (S (S (calls s))) block (_chain s) = inr mhp /\
            finalizedHeight (_chain s')
            = Z.max (finalizedHeight (_chain s)) mhp /\
            (finalizedHeight (_chain s) <= finalizedHeight (_chain s'))%Z
      | (_, s') => _chain s' = _chain s
      end).
Proof.
  split.
  - intros ops. induction ops as [|op ops IH]; intros s; cbn.
    + lia.
    + pose proof (fh_le_perform env fuel op s) as H. unfold fh_le in H.
      specialize (IH (perform env fuel op s)). unfold performAll in IH. lia.
  - intros block options s. rewrite executeValidated_unfold. cbv zeta.
    destruct (stateMachine_verifyBlock _ _ _ _); [reflexivity|].
    destruct (stateMachine_executeBlock _ _ _ _);
      [unfold broadcast; destruct (negb _); reflexivity|].
    destruct (bftAPI_getBFTHeights _ _ _ _) as [e|mhp];
      [unfold broadcast; destruct (negb _); reflexivity|].
    destruct (db_write _ _ _ _);
      [unfold broadcast; destruct (negb _); reflexivity|].
    exists mhp. cbn. repeat split; lia.
Qed.

(** ** [_executeValidated]: what has happened when a step throws *)

Example executeValidated_example_verify_fails :
  let env :=
    {| stateMachine_verifyBlock := fun _ _ _ => Some (JsErrorOf "Invalid signature");
       stateMachine_executeBlock := fun _ _ _ => None;
       bftAPI_getBFTHeights := fun _ _ _ => inr 0%Z;
       chain_verifyBlock := fun _ _ _ => None;
       db_write := fun _ _ _ => None;
       forkChoice := fun _ _ _ => VALID_BLOCK;
       codec_decode := fun bytes => inr bytes;
       Block_fromBytes := fun _ => inr block101;
       synchronizer_run := fun _ _ _ _ => SyncReturn |} in
  _executeValidated env block101 no_options state100
  = (Thrown (JsErrorOf "Invalid signature"), next_call state100).
Proof. reflexivity. Qed.

(** C2, as stated, fails: the state machine accepts block 101 in
    [verifyBlock] and rejects it in [executeBlock]; [_executeValidated]
    throws, the chain is untouched and no BLOCK_NEW is emitted, but the block
    has already been sent to the network and BLOCK_BROADCAST emitted. *)
Lemma executeValidated_broadcasts_before_executing :
  let env := rejecting "H101" 100 VALID_BLOCK block101 in
  let r := _executeValidated env block101 no_options state100 in
  r.1 = Thrown (JsErrorOf "Invalid transaction") /\
  _chain r.2 = _chain state100 /\
  trace r.2 = [NetworkSend block101;
               Emit CONSENSUS_EVENT_BLOCK_BROADCAST block101].
Proof. repeat split; reflexivity. Qed.

(** C2, amended. When [_executeValidated] throws, the block is not persisted
    (the chain is as before) and no BLOCK_NEW has been emitted. The network
    send and BLOCK_BROADCAST do not wait for the persist: unless
    [skipBroadcast] is set they happen as soon as [stateMachine.verifyBlock]
    has returned, before [executeBlock], [getBFTHeights] and [saveBlock]. So
    the trace is unchanged when [verifyBlock] itself threw or [skipBroadcast]
    is set, and has grown by exactly the send and BLOCK_BROADCAST
    otherwise. *)
Theorem executeValidated_failure (env : Collaborators) (block : Block)
    (options : ExecuteOptions) (s s' : State) (e : Exception) :
  _executeValidated env block options s = (Thrown e, s') ->
  _chain s' = _chain s /\
  trace s' =
    (if is_Some_b (stateMachine_verifyBlock env (calls s) block (_chain s))
        || truthy (skipBroadcast options)
     then trace s
     else trace s ++ [NetworkSend block;
                      Emit CONSENSUS_EVENT_BLOCK_BROADCAST block]).
Proof.
  rewrite executeValidated_unfold. cbv zeta. unfold broadcast, is_Some_b.
  destruct (stateMachine_verifyBlock _ _ _ _).
  { intros [= <- <-]. split; reflexivity. }
  destruct (stateMachine_executeBlock _ _ _ _).
  { intros [= <- <-]. destruct (truthy _); cbn; rewrite <- ?app_assoc; split; reflexivity. }
  destruct (bftAPI_getBFTHeights _ _ _ _).
  { intros [= <- <-]. destruct (truthy _); cbn; rewrite <- ?app_assoc; split; reflexivity. }
  destruct (db_write _ _ _ _).
  { intros [= <- <-]. destruct (truthy _); cbn; rewrite <- ?app_assoc; split; reflexivity. }
  discriminate.
Qed.

Lemma executeValidated_failure_witness :
  let env := rejecting "H101" 100 VALID_BLOCK block101 in
  let s' := next_call
              (add_effect (Emit CONSENSUS_EVENT_BLOCK_BROADCAST block101)
                 (add_effect (NetworkSend block101) (next_call state100))) in
  _chain s' = _chain state100 /\
  trace s' = [NetworkSend block101; Emit CONSENSUS_EVENT_BLOCK_BROADCAST block101].
Proof.
  intros env s'.
  exact (executeValidated_failure env block101 no_options state100 s'
           (JsErrorOf "Invalid transaction") eq_refl).
Defined.

(** ** The tie-break swap *)

(** The test for an unknown fork status never fires. *)
Lemma includes_forkStatusList status : includes forkStatusList status = true.
Proof. destruct status; reflexivity. Qed.

(** [_execute] on a tie break, up to the point where the old tip is gone. *)
Lemma execute_tie_break env fuel block peerID s :
  _stop s = false -> _mutex s = false ->
  forkChoice env (calls s) (header block) (header (lastBlock (_chain s))) = TIE_BREAK ->
  _execute env fuel block peerID s =
  released (tieBreakSwap env block (lastBlock (_chain s)) (tieBreakEntry block s)).
Proof.
  intros Hstop Hmutex Hfc.
  unfold _execute, runExclusive.
  unfold bind at 1, gets at 1. rewrite Hstop, Hmutex.
  unfold bind at 1, effect at 1, modify at 1.
  unfold bind at 1, gets at 1.
  unfold bind at 1, call at 1. cbn [calls _chain add_effect set_mutex next_call].
  rewrite Hfc. cbn [includes forkStatusList existsb ForkStatus_eqb orb negb].
  unfold bind at 1, effect at 1, modify at 1.
  unfold bind at 1, effect at 1, modify at 1.
  unfold released, tieBreakSwap, tieBreakEntry, restoreLog, restoreOptions.
  reflexivity.
Qed.

(** C1, as stated, fails: block X100 ties with the tip H100 and the state
    machine refuses to execute it. The tip is deleted, X100 is tried and
    fails, H100 is restored with [skipBroadcast], and then [_execute], and
    with it [onBlockReceive], returns normally: the error of X100 is logged
    and not thrown to the caller. *)
Lemma tie_break_error_not_propagated :
  let env := rejecting "X100" 98 TIE_BREAK block100' in
  let r := onBlockReceive env 1 (BufferData "bytes") "peer" state100 in
  (forall n c, stateMachine_executeBlock env n block100' c
               = Some (JsErrorOf "Invalid transaction")) /\
  r.1 = Returned tt /\
  _execute env 1 block100' "peer" state100 = r /\
  _chain r.2 = chain100 /\
  trace r.2 =
    [Log LDebug "Starting to process block";
     Log LInfo "Received tie breaking block";
     Emit CONSENSUS_EVENT_FORK_DETECTED block100';
     Emit CONSENSUS_EVENT_BLOCK_DELETE block100;
     NetworkSend block100';
     Emit CONSENSUS_EVENT_BLOCK_BROADCAST block100';
     restoreLog;
     Emit CONSENSUS_EVENT_BLOCK_NEW block100].
Proof. repeat split; reflexivity. Qed.

(** C1, amended. On a TIE_BREAK dispatch where the new block H passes
    [_verify], the old tip T is deleted and executing H then throws, the
    processor logs the error and restores T by calling
    [_executeValidated(T, {skipBroadcast: true})]. The error of H is not
    propagated: [_execute] ends the way the restoring call ends. It returns
    normally, with T the tip again, when the restore returns, and it throws
    the restore's own error when the restore throws. *)
Theorem tie_break_restores_previous_block (env : Collaborators) (fuel : nat)
    (block : Block) (peerID : string) (s s1 s2 s3 : State) (e : Exception) :
  _stop s = false -> _mutex s = false ->
  forkChoice env (calls s) (header block) (header (lastBlock (_chain s))) = TIE_BREAK ->
  _verify env block (tieBreakEntry block s) = (Returned tt, s1) ->
  _deleteBlock env (lastBlock (_chain s)) false s1 = (Returned tt, s2) ->
  _executeValidated env block no_options s2 = (Thrown e, s3) ->
  let restore :=
    _executeValidated env (lastBlock (_chain s)) restoreOptions
      (add_effect restoreLog s3) in
  _execute env fuel block peerID s =
    match restore with
    | (Returned _, s4) => (Returned tt, set_mutex false s4)
    | (Thrown e', s4) => (Thrown e', set_mutex false s4)
    | (Pending, s4) => (Pending, s4)
    | (OutOfFuel, s4) => (OutOfFuel, s4)
    end /\
  (forall b s4, restore = (Returned b, s4) ->
     lastBlock (_chain s4) = lastBlock (_chain s) /\
     trace s4 = trace s3 ++ [restoreLog;
                             Emit CONSENSUS_EVENT_BLOCK_NEW (lastBlock (_chain s))]).
Proof.
  intros Hstop Hmutex Hfc Hverify Hdelete Hexec restore.
  split.
  - rewrite execute_tie_break by assumption. unfold tieBreakSwap.
    unfold bind at 1. rewrite Hverify.
    unfold bind at 1. rewrite Hdelete.
    unfold try_catch. unfold bind at 1. rewrite Hexec.
    unfold bind at 1, effect at 1, modify at 1.
    unfold bind at 1. fold restore.
    destruct restore as [[b|e'| |] s4]; reflexivity.
  - intros b s4. subst restore. rewrite executeValidated_unfold. cbv zeta.
    unfold broadcast, restoreOptions.
    cbn [skipBroadcast truthy negb removeFromTempTable or_default].
    destruct (stateMachine_verifyBlock _ _ _ _); [discriminate|].
    destruct (stateMachine_executeBlock _ _ _ _); [discriminate|].
    destruct (bftAPI_getBFTHeights _ _ _ _); [discriminate|].
    destruct (db_write _ _ _ _); [discriminate|].
    intros [= _ <-]. cbn. rewrite <- app_assoc. split; reflexivity.
Qed.

Lemma tie_break_restores_previous_block_witness :
  let env := rejecting "X100" 98 TIE_BREAK block100' in
  exists s4,
    _execute env 1 block100' "peer" state100 = (Returned tt, set_mutex false s4) /\
    lastBlock (_chain s4) = block100.
Proof.
  intros env.
  pose (s1 := next_call (tieBreakEntry block100' state100)).
  pose (s2 := (_deleteBlock env block100 false s1).2).
  pose (s3 := (_executeValidated env block100' no_options s2).2).
  pose (s4 := (_executeValidated env block100 restoreOptions
                 (add_effect restoreLog s3)).2).
  exists s4.
  destruct (tie_break_restores_previous_block env 1 block100' "peer" state100
              s1 s2 s3 (JsErrorOf "Invalid transaction")
              eq_refl eq_refl eq_refl eq_refl eq_refl eq_refl) as [H1 H2].
  split.
  - exact H1.
  - reflexivity.
Defined.

(** ** Deleting at or below the finalized height *)

Lemma deleteBlock_guard env block saveTemp s :
  (h_height (header block) <= finalizedHeight (_chain s))%Z ->
  _deleteBlock env block saveTemp s = (Thrown deleteBelowFinalized, s).
Proof.
  intros H. unfold _deleteBlock, bind, gets.
  apply Z.leb_le in H. rewrite H. reflexivity.
Qed.

Lemma deleteBlock_returns env block saveTemp s s' :
  _deleteBlock env block saveTemp s = (Returned tt, s') ->
  (finalizedHeight (_chain s) < h_height (header block))%Z /\
  finalizedHeight (_chain s') = finalizedHeight (_chain s).
Proof.
  unfold _deleteBlock. unfold bind at 1, gets at 1.
  destruct (Z.leb_spec (h_height (header block)) (finalizedHeight (_chain s)));
    [discriminate|].
  promise.
  destruct (db_write _ _ _ _); [discriminate|].
  destruct (previousBlocks (_chain s)); [discriminate|].
  intros [= <-]. split; [assumption|reflexivity].
Qed.

Lemma verify_unfold env block s :
  _verify env block s =
  if negb (h_version (header block) =? BLOCK_VERSION)%Z
  then (Thrown versionError, s)
  else
    match chain_verifyBlock env (calls s) block (_chain s) with
    | Some error =>
        (Thrown {| cls := ApplyPenaltyError;
                   message := Some (or_default (message error)
                                      "Invalid block to be processed") |},
         next_call s)
    | None => (Returned tt, next_call s)
    end.
Proof.
  unfold _verify. destruct (negb _); [reflexivity|]. promise.
  destruct (chain_verifyBlock _ _ _ _); reflexivity.
Qed.

Lemma verify_throws env block s e s' :
  _verify env block s = (Thrown e, s') ->
  cls e = ApplyPenaltyError /\ _chain s' = _chain s /\ trace s' = trace s.
Proof.
  rewrite verify_unfold. destruct (negb _).
  - intros [= <- <-]. repeat split.
  - destruct (chain_verifyBlock _ _ _ _); [|discriminate].
    intros [= <- <-]. repeat split.
Qed.

Lemma verify_returns env block s u s' :
  _verify env block s = (Returned u, s') ->
  s' = next_call s /\ h_version (header block) = BLOCK_VERSION.
Proof.
  rewrite verify_unfold.
  destruct (Z.eqb_spec (h_version (header block)) BLOCK_VERSION); cbn [negb];
    [|discriminate].
  destruct (chain_verifyBlock _ _ _ _); [discriminate|].
  intros [= _ <-]. split; [reflexivity|assumption].
Qed.

Lemma verify_settles env block s :
  (exists e s', _verify env block s = (Thrown e, s')) \/
  _verify env block s = (Returned tt, next_call s).
Proof.
  rewrite verify_unfold. destruct (negb _); [left; eauto|].
  destruct (chain_verifyBlock _ _ _ _); [left; eauto|right; reflexivity].
Qed.

(** C4. A block whose height is at or below the finalized height cannot be
    deleted: [_deleteBlock] throws and leaves the state as it was. When the
    tip is such a block, [_deleteLastBlock] and the tie-break path of
    [_execute] leave the chain unchanged in every state, and on a running
    node (not stopped, mutex free) they throw: [_deleteLastBlock] the
    deletion error, the tie-break path either the penalty error of [_verify]
    or the deletion error. Conversely a deletion that goes through was of a
    block above the finalized height. *)
Theorem no_delete_at_or_below_finalized (env : Collaborators) (fuel : nat)
    (block incoming : Block) (peerID : string) (options : DeleteOptions)
    (saveTemp : bool) (s : State) :
  (h_height (header block) <= finalizedHeight (_chain s))%Z ->
  _deleteBlock env block saveTemp s = (Thrown deleteBelowFinalized, s) /\
  (lastBlock (_chain s) = block ->
   _chain (_deleteLastBlock env options s).2 = _chain s /\
   (_stop s = false -> _mutex s = false ->
    _deleteLastBlock env options s
    = (Thrown deleteBelowFinalized,
       add_effect (Log LDebug "Deleting last block") s)) /\
   (forkChoice env (calls s) (header incoming) (header block) = TIE_BREAK ->
    _chain (_execute env fuel incoming peerID s).2 = _chain s /\
    (_stop s = false -> _mutex s = false ->
     exists e s',
       _execute env fuel incoming peerID s = (Thrown e, s') /\
       (e = deleteBelowFinalized \/ cls e = ApplyPenaltyError)))) /\
  (forall b st st', _deleteBlock env b saveTemp st = (Returned tt, st') ->
     (finalizedHeight (_chain st) < h_height (header b))%Z).
Proof.
  intros Hle. split; [now apply deleteBlock_guard|]. split.
  - intros Htip.
    assert (Hdel : _stop s = false -> _mutex s = false ->
              _deleteLastBlock env options s
              = (Thrown deleteBelowFinalized,
                 add_effect (Log LDebug "Deleting last block") s)).
    { intros Hstop Hmutex.
      unfold _deleteLastBlock. unfold bind at 1, gets at 1. rewrite Hstop.
      unfold runExclusive. rewrite Hmutex.
      unfold bind at 1, gets at 1. unfold bind at 1, effect at 1, modify at 1.
      cbn [_chain set_mutex]. rewrite Htip.
      rewrite deleteBlock_guard by (cbn; exact Hle).
      f_equal. destruct s; cbn in *; subst; reflexivity. }
    split; [|split; [exact Hdel|]].
    { destruct (_stop s) eqn:Hstop.
      { unfold _deleteLastBlock, bind, gets. rewrite Hstop. reflexivity. }
      destruct (_mutex s) eqn:Hmutex.
      { unfold _deleteLastBlock, bind, gets, runExclusive.
        rewrite Hstop, Hmutex. reflexivity. }
      rewrite Hdel by reflexivity. reflexivity. }
    intros Hfc. rewrite <- Htip in Hfc.
    assert (Hrun : _stop s = false -> _mutex s = false ->
              exists e s',
                _execute env fuel incoming peerID s = (Thrown e, s') /\
                (e = deleteBelowFinalized \/ cls e = ApplyPenaltyError) /\
                _chain s' = _chain s).
    { intros Hstop Hmutex.
      rewrite execute_tie_break by assumption.
      unfold tieBreakSwap. unfold bind at 1.
      destruct (verify_settles env incoming (tieBreakEntry incoming s))
        as [(e & s' & Hv)|Hv]; rewrite Hv.
      * exists e, (set_mutex false s'). split; [reflexivity|].
        apply verify_throws in Hv as (Hcls & Hchain & _).
        split; [now right|]. exact Hchain.
      * unfold bind at 1. rewrite Htip.
        rewrite deleteBlock_guard by (cbn; exact Hle).
        eexists _, _. split; [reflexivity|]. split; [now left|reflexivity]. }
    split.
    { destruct (_stop s) eqn:Hstop.
      { unfold _execute, bind, gets. rewrite Hstop. reflexivity. }
      destruct (_mutex s) eqn:Hmutex.
      { unfold _execute, bind, gets, runExclusive.
        rewrite Hstop, Hmutex. reflexivity. }
      destruct (Hrun eq_refl eq_refl) as (e & s' & -> & _ & Hchain).
      exact Hchain. }
    intros Hstop Hmutex.
    destruct (Hrun Hstop Hmutex) as (e & s' & H1 & H2 & _). eauto.
  - intros b st st' H. now apply deleteBlock_returns in H.
Qed.

Lemma no_delete_at_or_below_finalized_witness :
  let env := agreeable 100 TIE_BREAK block100' SyncReturn in
  (h_height (header block100) <= finalizedHeight (_chain finalizedState))%Z /\
  _deleteBlock env block100 false finalizedState
    = (Thrown deleteBelowFinalized, finalizedState) /\
  _deleteLastBlock env {| saveTempBlock := None |} finalizedState
    = (Thrown deleteBelowFinalized,
       add_effect (Log LDebug "Deleting last block") finalizedState) /\
  _chain (_execute env 1 block100' "peer" finalizedState).2 = finalizedChain /\
  exists e s',
    _execute env 1 block100' "peer" finalizedState = (Thrown e, s') /\
    (e = deleteBelowFinalized \/ cls e = ApplyPenaltyError).
Proof.
  intros env.
  assert (Hle : (h_height (header block100)
                 <= finalizedHeight (_chain finalizedState))%Z) by (cbn; lia).
  destruct (no_delete_at_or_below_finalized env 1 block100 block100' "peer"
              {| saveTempBlock := None |} false finalizedState Hle)
    as (H1 & H2 & _).
  destruct (H2 eq_refl) as (_ & H3 & H4).
  destruct (H4 eq_refl) as (H5 & H6).
  split; [exact Hle|]. split; [exact H1|]. split; [exact (H3 eq_refl eq_refl)|].
  split; [exact H5|]. exact (H6 eq_refl eq_refl).
Defined.

Example deleteLastBlock_example :
  let env := agreeable 98 DISCARD block100 SyncReturn in
  _deleteLastBlock env {| saveTempBlock := Some true |} state100 =
  (Returned tt,
   {| _chain := {| lastBlock := block99; previousBlocks := [];
                   finalizedHeight := 98; tempBlocks := [block100] |};
      _stop := false; _mutex := false; isActive := false;
      trace := [Log LDebug "Deleting last block";
                Emit CONSENSUS_EVENT_BLOCK_DELETE block100];
      calls := 1 |}).
Proof. reflexivity. Qed.

(** ** The synchronisation supervisor *)

Example sync_restarts_then_aborts :
  _sync flaky 3 block101 "peer" state100 =
  (Returned tt,
   {| _chain := chain100; _stop := false; _mutex := false; isActive := false;
      trace := [ApplyPenaltyOnPeer "peer" 100;
                Log LInfo "Aborting synchronization mechanism"];
      calls := 3 |}).
Proof. reflexivity. Qed.

Example sync_out_of_fuel :
  (_sync flaky 2 block101 "peer" state100).1 = OutOfFuel.
Proof. reflexivity. Qed.

Example sync_stopped :
  _sync flaky 3 block101 "peer" (set_stop true state100)
  = (Returned tt, set_stop true state100).
Proof. reflexivity. Qed.

(** C5. When a run of the synchronizer throws, [_sync] translates the error
    by its class: ApplyPenaltyAndRestartError applies a penalty of 100 to the
    peer and runs [_sync] again; RestartError runs [_sync] again without a
    penalty; AbortError is logged and [_sync] returns normally; any other
    error is thrown to the caller. *)
Theorem sync_translates_errors (env : Collaborators) (fuel : nat)
    (block : Block) (peerID : string) (s s' : State) (error : Exception) :
  _stop s = false ->
  Synchronizer_run env block peerID s = (Thrown error, s') ->
  _sync env (S fuel) block peerID s =
    match cls error with
    | ApplyPenaltyAndRestartError =>
        _sync env fuel block peerID (add_effect (ApplyPenaltyOnPeer peerID 100) s')
    | RestartError => _sync env fuel block peerID s'
    | AbortError =>
        (Returned tt,
         add_effect (Log LInfo "Aborting synchronization mechanism") s')
    | ApplyPenaltyError | JsError => (Thrown error, s')
    end.
Proof.
  intros Hstop Hrun. cbn [_sync].
  unfold bind at 1, gets at 1. rewrite Hstop.
  unfold try_catch. rewrite Hrun.
  destruct (cls error); reflexivity.
Qed.

Lemma sync_translates_errors_witness :
  _sync flaky 3 block101 "peer" state100 =
  _sync flaky 2 block101 "peer"
    (add_effect (ApplyPenaltyOnPeer "peer" 100) (next_call state100)).
Proof.
  exact (sync_translates_errors flaky 2 block101 "peer" state100
           (next_call state100)
           {| cls := ApplyPenaltyAndRestartError; message := None |}
           eq_refl eq_refl).
Defined.

(** One round of [_sync]. *)
Lemma sync_unfold env fuel block peerID s :
  _sync env (S fuel) block peerID s =
  if _stop s then (Returned tt, s)
  else
    match Synchronizer_run env block peerID s with
    | (Thrown error, s') =>
        match cls error with
        | ApplyPenaltyAndRestartError =>
            _sync env fuel block peerID
              (add_effect (ApplyPenaltyOnPeer peerID 100) s')
        | RestartError => _sync env fuel block peerID s'
        | AbortError =>
            (Returned tt,
             add_effect (Log LInfo "Aborting synchronization mechanism") s')
        | ApplyPenaltyError | JsError => (Thrown error, s')
        end
    | r => r
    end.
Proof.
  cbn [_sync]. unfold bind at 1, gets at 1.
  destruct (_stop s); [reflexivity|]. unfold try_catch.
  destruct (Synchronizer_run env block peerID s) as [[u|error| |] s'];
    try reflexivity.
  destruct (cls error); reflexivity.
Qed.

(** The fuel only bounds the restarts: a result reached with some fuel is
    the result with more. *)
Lemma sync_more_fuel env fuel block peerID s r s' :
  _sync env fuel block peerID s = (r, s') -> r <> OutOfFuel ->
  _sync env (S fuel) block peerID s = (r, s').
Proof.
  revert s. induction fuel as [|fuel IH]; intros s H Hr.
  - cbn in H. injection H as <- <-. contradiction.
  - rewrite sync_unfold in H. rewrite sync_unfold.
    destruct (_stop s); [exact H|].
    destruct (Synchronizer_run env block peerID s) as [[u|error| |] s1];
      try exact H.
    destruct (cls error); try exact H; now apply IH.
Qed.

(** A run that returns ends [_sync] at once. *)
Lemma sync_returns env fuel block peerID s s' :
  _stop s = false ->
  Synchronizer_run env block peerID s = (Returned tt, s') ->
  _sync env (S fuel) block peerID s = (Returned tt, s').
Proof.
  intros Hstop Hrun. cbn [_sync].
  unfold bind at 1, gets at 1. rewrite Hstop.
  unfold try_catch. rewrite Hrun. reflexivity.
Qed.

(** ** The stop flag *)

Lemma stop_unfold s :
  stop s = if _mutex s then (Pending, set_stop true s)
           else (Returned tt, set_mutex true (set_stop true s)).
Proof. unfold stop, acquire. promise. destruct (_mutex s); reflexivity. Qed.

Lemma execute_stop_flag_irrelevant env block b s :
  execute env block (set_stop b s) =
  ((execute env block s).1, set_stop b (execute env block s).2).
Proof.
  unfold execute, runExclusive. cbn [_mutex set_stop].
  destruct (_mutex s); [reflexivity|].
  unfold bind. rewrite !executeValidated_unfold. cbv zeta.
  cbn [calls _chain set_mutex set_stop].
  destruct (stateMachine_verifyBlock _ _ _ _); [reflexivity|].
  destruct (stateMachine_executeBlock _ _ _ _); [reflexivity|].
  destruct (bftAPI_getBFTHeights _ _ _ _); [reflexivity|].
  destruct (db_write _ _ _ _); reflexivity.
Qed.

(** C6, as stated, fails for [execute]: it has no check of the stop flag.
    After [stop()], [_execute] and [_deleteLastBlock] return at once, while
    [execute] asks for the mutex and never settles; and in a state where the
    flag is set and the mutex is free it executes the block. *)
Lemma execute_does_not_check_stop_flag :
  let env := agreeable 98 VALID_BLOCK block101 SyncReturn in
  _stop stopped100 = true /\
  _execute env 1 block101 "peer" stopped100 = (Returned tt, stopped100) /\
  _deleteLastBlock env {| saveTempBlock := None |} stopped100
    = (Returned tt, stopped100) /\
  execute env block101 stopped100 = (Pending, stopped100) /\
  _stop (set_stop true state100) = true /\
  (execute env block101 (set_stop true state100)).1 = Returned tt /\
  lastBlock (_chain (execute env block101 (set_stop true state100)).2) = block101.
Proof. repeat split; reflexivity. Qed.

(** C6, amended. Once the stop flag is set, [_execute] (the processing path
    of [onBlockReceive]), [_deleteLastBlock] and [_sync] check it first and
    return with the state untouched, and [onBlockReceive] leaves the chain
    as it is. [execute] does not check the flag: its result does not depend
    on it. What keeps [execute] off the chain after [stop()] is the mutex,
    which [stop()] takes and never gives back: while it is held, [execute]
    never settles and changes nothing. *)
Theorem stop_flag_guards_entry_points (env : Collaborators) (fuel : nat)
    (block : Block) (peerID : string) (options : DeleteOptions) (s : State) :
  _stop s = true ->
  _execute env fuel block peerID s = (Returned tt, s) /\
  _deleteLastBlock env options s = (Returned tt, s) /\
  _sync env (S fuel) block peerID s = (Returned tt, s) /\
  (forall data, _chain (onBlockReceive env fuel data peerID s).2 = _chain s) /\
  (forall b, execute env block (set_stop b s) =
             ((execute env block s).1, set_stop b (execute env block s).2)) /\
  (_mutex s = true -> execute env block s = (Pending, s)) /\
  (forall s0, _stop (stop s0).2 = true /\ _mutex (stop s0).2 = true).
Proof.
  intros Hstop.
  assert (Hexec : _execute env fuel block peerID s = (Returned tt, s)).
  { unfold _execute, bind, gets. rewrite Hstop. reflexivity. }
  split; [exact Hexec|].
  split. { unfold _deleteLastBlock, bind, gets. rewrite Hstop. reflexivity. }
  split. { cbn [_sync]. unfold bind, gets. rewrite Hstop. reflexivity. }
  split.
  { intros data. unfold onBlockReceive. unfold bind at 1, gets at 1.
    destruct (isActive s); [reflexivity|].
    destruct data as [bytes|]; [|reflexivity].
    destruct (codec_decode env bytes) as [error|blockBytes]; [reflexivity|].
    destruct (Block_fromBytes env blockBytes) as [error|decoded]; [reflexivity|].
    unfold try_catch.
    replace (_execute env fuel decoded peerID s) with (@Returned unit tt, s);
      [reflexivity|].
    unfold _execute, bind, gets. rewrite Hstop. reflexivity. }
  split; [intros b; apply execute_stop_flag_irrelevant|].
  split.
  { intros Hmutex. unfold execute, runExclusive. rewrite Hmutex. reflexivity. }
  intros s0. rewrite stop_unfold. destruct (_mutex s0) eqn:E; cbn; auto.
Qed.

Lemma stop_flag_guards_entry_points_witness :
  let env := agreeable 98 VALID_BLOCK block101 SyncReturn in
  _stop stopped100 = true /\
  _execute env 1 block101 "peer" stopped100 = (Returned tt, stopped100) /\
  _sync env 2 block101 "peer" stopped100 = (Returned tt, stopped100) /\
  execute env block101 stopped100 = (Pending, stopped100).
Proof.
  intros env.
  destruct (stop_flag_guards_entry_points env 1 block101 "peer"
              {| saveTempBlock := None |} stopped100 eq_refl)
    as (H1 & _ & H3 & _ & _ & H6 & _).
  split; [reflexivity|]. split; [exact H1|]. split; [exact H3|].
  exact (H6 eq_refl).
Defined.

(** ** Advertising the new tip *)

Lemma nodeInfos_app t1 t2 : nodeInfos (t1 ++ t2) = nodeInfos t1 ++ nodeInfos t2.
Proof.
  induction t1 as [|[] t1 IH]; cbn; rewrite ?IH; reflexivity.
Qed.

Lemma same_nodeInfos_effect e s :
  (forall i, e <> ApplyNodeInfo i) -> same_nodeInfos s (add_effect e s).
Proof.
  intros H. unfold same_nodeInfos. cbn. rewrite nodeInfos_app.
  destruct e; cbn; rewrite ?app_nil_r; try reflexivity.
  now destruct (H info).
Qed.

Ltac same_nodeInfos_frame :=
  first [ exact same_nodeInfos_effect
        | unfold same_nodeInfos; intros; cbn in *; congruence ].

Lemma execute_valid_block env fuel block peerID s :
  _stop s = false -> _mutex s = false ->
  forkChoice env (calls s) (header block) (header (lastBlock (_chain s))) = VALID_BLOCK ->
  _execute env fuel block peerID s =
  match _verify env block (validEntry s) with
  | (Returned _, s1) =>
      match _executeValidated env block no_options s1 with
      | (Returned _, s2) =>
          (Returned tt, set_mutex false (add_effect (ApplyNodeInfo (nodeInfoOf block)) s2))
      | (Thrown e, s2) => (Thrown e, set_mutex false s2)
      | (Pending, s2) => (Pending, s2)
      | (OutOfFuel, s2) => (OutOfFuel, s2)
      end
  | (Thrown e, s1) => (Thrown e, set_mutex false s1)
  | (Pending, s1) => (Pending, s1)
  | (OutOfFuel, s1) => (OutOfFuel, s1)
  end.
Proof.
  intros Hstop Hmutex Hfc.
  unfold _execute, runExclusive.
  unfold bind at 1, gets at 1. rewrite Hstop, Hmutex.
  unfold bind at 1, effect at 1, modify at 1.
  unfold bind at 1, gets at 1.
  unfold bind at 1, call at 1. cbn [calls _chain add_effect set_mutex next_call].
  rewrite Hfc. cbn [includes forkStatusList existsb ForkStatus_eqb orb negb].
  unfold bind at 1, effect at 1, modify at 1.
  unfold bind at 1. fold (validEntry s).
  destruct (_verify env block (validEntry s)) as [[u|e| |] s1]; try reflexivity.
  unfold bind at 1.
  destruct (_executeValidated env block no_options s1) as [[b|e| |] s2];
    reflexivity.
Qed.

(** C7, as stated, fails: the generator's [execute], a tie-break swap and a
    block applied by the synchronizer all end in a successful
    [_executeValidated] and a new tip, and no node info is sent. *)
Lemma applyNodeInfo_only_on_valid_block :
  let generator := execute (agreeable 98 VALID_BLOCK block101 SyncReturn)
                     block101 state100 in
  let swap := _execute (agreeable 98 TIE_BREAK block100' SyncReturn) 1
                block100' "peer" state100 in
  let sync := _execute (agreeable 98 DIFFERENT_CHAIN block101 syncOneBlock) 1
                block101 "peer" state100 in
  (generator.1 = Returned tt /\
   lastBlock (_chain generator.2) = block101 /\
   In (Emit CONSENSUS_EVENT_BLOCK_NEW block101) (trace generator.2) /\
   nodeInfos (trace generator.2) = []) /\
  (swap.1 = Returned tt /\
   lastBlock (_chain swap.2) = block100' /\
   In (Emit CONSENSUS_EVENT_BLOCK_NEW block100') (trace swap.2) /\
   nodeInfos (trace swap.2) = []) /\
  (sync.1 = Returned tt /\
   lastBlock (_chain sync.2) = block101 /\
   In (Emit CONSENSUS_EVENT_BLOCK_NEW block101) (trace sync.2) /\
   nodeInfos (trace sync.2) = []).
Proof. cbn. intuition. Qed.

(** C7, amended. [applyNodeInfo] is called by the valid-block branch of
    [_execute] only: when a received block is classified VALID_BLOCK and
    [_verify] and [_executeValidated] return, the node info of the block
    (height, id, maxHeightPrevoted 0, version) is sent right after, and
    [_execute] returns. [_executeValidated] itself sends none, and neither do
    the generator's [execute], the synchronizer's runs, nor any other branch
    of [_execute], the tie-break swap included. *)
Theorem applyNodeInfo_after_valid_block (env : Collaborators) (fuel : nat)
    (block : Block) (peerID : string) (s s1 s2 : State) (b : Block) :
  _stop s = false -> _mutex s = false ->
  forkChoice env (calls s) (header block) (header (lastBlock (_chain s))) = VALID_BLOCK ->
  _verify env block (validEntry s) = (Returned tt, s1) ->
  _executeValidated env block no_options s1 = (Returned b, s2) ->
  _execute env fuel block peerID s
    = (Returned tt, set_mutex false (add_effect (ApplyNodeInfo (nodeInfoOf block)) s2)) /\
  nodeInfos (trace s2) = nodeInfos (trace s) /\
  (forall blk o st,
     nodeInfos (trace (_executeValidated env blk o st).2) = nodeInfos (trace st)) /\
  (forall blk st,
     nodeInfos (trace (execute env blk st).2) = nodeInfos (trace st)) /\
  (forall blk p st,
     nodeInfos (trace (_sync env fuel blk p st).2) = nodeInfos (trace st)) /\
  (forall blk p st,
     forkChoice env (calls st) (header blk) (header (lastBlock (_chain st)))
       <> VALID_BLOCK ->
     nodeInfos (trace (_execute env fuel blk p st).2) = nodeInfos (trace st)).
Proof.
  intros Hstop Hmutex Hfc Hverify Hexec.
  assert (HeV : forall blk o st,
            nodeInfos (trace (_executeValidated env blk o st).2)
            = nodeInfos (trace st)).
  { intros. apply (frame_executeValidated env same_nodeInfos);
      same_nodeInfos_frame. }
  split; [|split; [|split; [exact HeV|split; [|split]]]].
  - rewrite execute_valid_block by assumption. rewrite Hverify, Hexec. reflexivity.
  - specialize (HeV block no_options s1). rewrite Hexec in HeV. cbn in HeV.
    rewrite HeV. apply verify_returns in Hverify as [-> _].
    cbn. rewrite !nodeInfos_app. cbn. rewrite !app_nil_r. reflexivity.
  - intros. apply (frame_execute_generator env same_nodeInfos);
      same_nodeInfos_frame.
  - intros. apply (frame_sync env same_nodeInfos); same_nodeInfos_frame.
  - intros blk p st H.
    apply (frame_execute_other env same_nodeInfos); same_nodeInfos_frame.
Qed.

Lemma applyNodeInfo_after_valid_block_witness :
  let env := agreeable 98 VALID_BLOCK block101 SyncReturn in
  exists s2,
    _execute env 1 block101 "peer" state100
      = (Returned tt,
         set_mutex false (add_effect (ApplyNodeInfo (nodeInfoOf block101)) s2)) /\
    lastBlock (_chain s2) = block101 /\
    nodeInfos (trace s2) = [].
Proof.
  intros env.
  pose (s1 := next_call (validEntry state100)).
  pose (s2 := (_executeValidated env block101 no_options s1).2).
  exists s2.
  destruct (applyNodeInfo_after_valid_block env 1 block101 "peer" state100 s1 s2
              block101 eq_refl eq_refl eq_refl eq_refl eq_refl)
    as (H1 & H2 & _).
  split; [exact H1|]. split; [reflexivity|exact H2].
Defined.

(** ** The block version *)

Lemma verify_wrong_version env block s :
  h_version (header block) <> BLOCK_VERSION ->
  _verify env block s = (Thrown versionError, s).
Proof.
  intros H. rewrite verify_unfold.
  destruct (Z.eqb_spec (h_version (header block)) BLOCK_VERSION);
    [contradiction|reflexivity].
Qed.

(** ** Receiving the tip again *)

Lemma withoutLogs_app t1 t2 :
  withoutLogs (t1 ++ t2) = withoutLogs t1 ++ withoutLogs t2.
Proof.
  induction t1 as [|[] t1 IH]; cbn; rewrite ?IH; reflexivity.
Qed.

Lemma forkChoice_rule_identical slots H T :
  h_id H = h_id T -> forkChoice_rule slots H T = IDENTICAL_BLOCK.
Proof.
  intros E. unfold forkChoice_rule. rewrite E, String.eqb_refl. reflexivity.
Qed.

Lemma execute_identical_block env fuel block peerID s :
  _stop s = false -> _mutex s = false ->
  forkChoice env (calls s) (header block) (header (lastBlock (_chain s)))
    = IDENTICAL_BLOCK ->
  _execute env fuel block peerID s =
  (Returned tt,
   set_mutex false
     (add_effect (Log LDebug "Block already processed")
        (next_call
           (add_effect (Log LDebug "Starting to process block")
              (set_mutex true s))))).
Proof.
  intros Hstop Hmutex Hfc.
  unfold _execute, runExclusive.
  unfold bind at 1, gets at 1. rewrite Hstop, Hmutex.
  unfold bind at 1, effect at 1, modify at 1.
  unfold bind at 1, gets at 1.
  unfold bind at 1, call at 1. cbn [calls _chain add_effect set_mutex next_call].
  rewrite Hfc. reflexivity.
Qed.

Example receive_valid_then_identical :
  let env := with_forkChoice_rule everySlot
               (agreeable 98 DISCARD next101 SyncReturn) in
  let once := onBlockReceive env 1 (BufferData "bytes") "peer" tipState in
  let twice := onBlockReceive env 1 (BufferData "bytes") "peer" once.2 in
  once.1 = Returned tt /\ lastBlock (_chain once.2) = next101 /\
  twice.1 = Returned tt /\ _chain twice.2 = _chain once.2 /\
  withoutLogs (trace twice.2) = withoutLogs (trace once.2) /\
  withoutLogs (trace once.2) =
    [NetworkSend next101; Emit CONSENSUS_EVENT_BLOCK_BROADCAST next101;
     Emit CONSENSUS_EVENT_BLOCK_NEW next101; ApplyNodeInfo (nodeInfoOf next101)].
Proof. cbn. repeat split. Qed.

(** C9. Receiving the current tip again through [onBlockReceive] is a no-op.
    In a state where the received block has the id of the tip, for instance
    the state a first receipt of the block has left, the fork-choice rule
    classifies it IDENTICAL_BLOCK and the call leaves the chain, the stop
    flag, the mutex and the events and network calls (penalties included) as
    they were; it only writes debug log lines, and with the mutex free it
    returns normally. So the state after receiving the block twice agrees
    with the state after receiving it once. *)
Theorem identical_block_is_noop (env0 : Collaborators) (slots : nat -> Slots)
    (fuel : nat) (bytes blockBytes : Bytes) (block : Block) (peerId : string)
    (s : State) :
  let env := with_forkChoice_rule slots env0 in
  codec_decode env bytes = inr blockBytes ->
  Block_fromBytes env blockBytes = inr block ->
  h_id (header block) = h_id (header (lastBlock (_chain s))) ->
  let again := onBlockReceive env fuel (BufferData bytes) peerId s in
  forkChoice env (calls s) (header block) (header (lastBlock (_chain s)))
    = IDENTICAL_BLOCK /\
  sameButLogs s again.2 /\
  (_mutex s = false -> again.1 = Returned tt).
Proof.
  intros env Hdecode Hblock Hid again.
  split; [now apply forkChoice_rule_identical|].
  assert (Hrun :
    again =
    if isActive s
    then (Returned tt,
          add_effect
            (Log LDebug "Client is syncing. Can't process new block at the moment.")
            s)
    else if _stop s then (Returned tt, s)
    else if _mutex s then (Pending, s)
    else (Returned tt,
          set_mutex false
            (add_effect (Log LDebug "Block already processed")
               (next_call
                  (add_effect (Log LDebug "Starting to process block")
                     (set_mutex true s)))))).
  { unfold again, onBlockReceive. unfold bind at 1, gets at 1.
    destruct (isActive s); [reflexivity|].
    rewrite Hdecode, Hblock. unfold try_catch.
    destruct (_stop s) eqn:Hstop.
    { unfold _execute, bind, gets. rewrite Hstop. reflexivity. }
    destruct (_mutex s) eqn:Hmutex.
    { unfold _execute, bind, gets, runExclusive. rewrite Hstop, Hmutex.
      reflexivity. }
    rewrite execute_identical_block; trivial.
    now apply forkChoice_rule_identical. }
  rewrite Hrun. unfold sameButLogs.
  destruct (isActive s) eqn:Hsync.
  { cbn. rewrite withoutLogs_app, Hsync. cbn. rewrite app_nil_r. auto 6. }
  destruct (_stop s) eqn:Hstop; [cbn; auto 6|].
  destruct (_mutex s) eqn:Hmutex; [cbn; split; [auto 6|discriminate]|].
  cbn. rewrite !withoutLogs_app. cbn. rewrite !app_nil_r. auto 6.
Qed.

Lemma identical_block_is_noop_witness :
  let env := with_forkChoice_rule everySlot
               (agreeable 98 DISCARD next101 SyncReturn) in
  let once := onBlockReceive env 1 (BufferData "bytes") "peer" tipState in
  let twice := onBlockReceive env 1 (BufferData "bytes") "peer" once.2 in
  lastBlock (_chain once.2) = next101 /\
  twice.1 = Returned tt /\ sameButLogs once.2 twice.2.
Proof.
  intros env once twice.
  destruct (identical_block_is_noop (agreeable 98 DISCARD next101 SyncReturn)
              everySlot 1 "bytes" "bytes" next101 "peer" once.2
              eq_refl eq_refl eq_refl)
    as (_ & H2 & H3).
  split; [reflexivity|]. split; [exact (H3 eq_refl)|exact H2].
Defined.

(** ** [isSynced] *)

Example isSynced_legacy_tip :
  isSynced 100 100 legacyState = true /\ isSynced 100 101 legacyState = false /\
  isSynced 100 5 tipState = false /\ isSynced 99 5 tipState = true /\
  isSynced 1000 4 tipState = true.
Proof. repeat split; reflexivity. Qed.

(** X1. [isSynced] is downward closed: if a peer state (height,
    maxHeightPrevoted) counts as synced against the tip, so does every state
    with a height and a prevoted height that are not larger, whatever the
    version of the tip. *)
Theorem isSynced_downward_closed (height maxHeightPrevoted height'
    maxHeightPrevoted' : Z) (s : State) :
  isSynced height maxHeightPrevoted s = true ->
  (height' <= height)%Z -> (maxHeightPrevoted' <= maxHeightPrevoted)%Z ->
  isSynced height' maxHeightPrevoted' s = true.
Proof.
  unfold isSynced. cbv zeta.
  destruct (h_version (header (lastBlock (_chain s))) =? 0)%Z; intros H Hh Hm.
  - apply andb_true_iff in H as [H1 H2].
    apply Z.leb_le in H1, H2. apply andb_true_iff. split; apply Z.leb_le; lia.
  - apply orb_true_iff in H as [H|H].
    + apply Z.ltb_lt in H. apply orb_true_iff. left. apply Z.ltb_lt. lia.
    + apply andb_true_iff in H as [H1 H2].
      apply Z.eqb_eq in H1. apply Z.ltb_lt in H2.
      apply orb_true_iff.
      destruct (Z.eq_dec maxHeightPrevoted' maxHeightPrevoted) as [E|E].
      * right. apply andb_true_iff. split; [apply Z.eqb_eq|apply Z.ltb_lt]; lia.
      * left. apply Z.ltb_lt. lia.
Qed.

Lemma isSynced_downward_closed_witness : isSynced 90 3 tipState = true.
Proof.
  apply (isSynced_downward_closed 99 5 90 3 tipState); [reflexivity|lia|lia].
Defined.

(** X2. Against a tip whose version is not 0, [isSynced] is the strict
    lexicographic order on (maxHeightPrevoted, height): of a peer state and
    the tip exactly one holds, the state is synced (strictly behind the
    tip), it equals the tip's, or it is strictly ahead; in particular the
    tip's own heights are not synced. Against a tip of version 0 the test is
    not strict and compares both numbers with the height of the tip, so the
    tip's own height is synced. *)
Theorem isSynced_strict_order (height maxHeightPrevoted : Z) (s : State) :
  let tip := header (lastBlock (_chain s)) in
  (h_version tip <> 0%Z ->
   (isSynced height maxHeightPrevoted s = true <->
    (maxHeightPrevoted < h_maxHeightPrevoted tip)%Z \/
    (maxHeightPrevoted = h_maxHeightPrevoted tip /\ height < h_height tip)%Z) /\
   isSynced (h_height tip) (h_maxHeightPrevoted tip) s = false /\
   (isSynced height maxHeightPrevoted s = false ->
    (height, maxHeightPrevoted) <> (h_height tip, h_maxHeightPrevoted tip) ->
    (h_maxHeightPrevoted tip < maxHeightPrevoted)%Z \/
    (h_maxHeightPrevoted tip = maxHeightPrevoted /\ h_height tip < height)%Z)) /\
  (h_version tip = 0%Z ->
   (isSynced height maxHeightPrevoted s = true <->
    (height <= h_height tip /\ maxHeightPrevoted <= h_height tip)%Z) /\
   isSynced (h_height tip) (h_height tip) s = true).
Proof.
  intros tip. unfold isSynced. cbv zeta. fold tip. split; intros Hv.
  - apply Z.eqb_neq in Hv. rewrite Hv.
    rewrite Z.ltb_irrefl, Z.eqb_refl. cbn [orb andb]. rewrite Z.ltb_irrefl.
    split; [|split; [reflexivity|]].
    + rewrite orb_true_iff, andb_true_iff, !Z.ltb_lt, Z.eqb_eq. tauto.
    + rewrite orb_false_iff, andb_false_iff, !Z.ltb_ge, Z.eqb_neq.
      intros [H1 H2] Hne.
      destruct (Z.eq_dec (h_maxHeightPrevoted tip) maxHeightPrevoted) as [E|E];
        [|left; lia].
      right. split; [exact E|]. destruct H2 as [H2|H2]; [lia|].
      destruct (Z.eq_dec (h_height tip) height) as [E'|E']; [|lia].
      exfalso. apply Hne. now rewrite <- E, <- E'.
  - apply Z.eqb_eq in Hv. rewrite Hv. rewrite Z.leb_refl. cbn [andb].
    split; [|reflexivity].
    rewrite andb_true_iff, !Z.leb_le. tauto.
Qed.

Lemma isSynced_strict_order_witness :
  (isSynced 99 5 tipState = true <-> (5 < 5)%Z \/ (5 = 5 /\ 99 < 100)%Z) /\
  isSynced 100 5 tipState = false /\
  isSynced 100 100 legacyState = true.
Proof.
  destruct (isSynced_strict_order 99 5 tipState) as [H _].
  destruct (isSynced_strict_order 100 100 legacyState) as [_ H'].
  assert (Hv : h_version (header (lastBlock (_chain tipState))) <> 0%Z)
    by (cbn; lia).
  destruct (H Hv) as (H1 & H2 & _). destruct (H' eq_refl) as (_ & H3).
  split; [exact H1|]. split; [exact H2|exact H3].
Defined.

(** ** [onBlockReceive]: the envelope *)

Lemma onBlockReceive_unfold env fuel data peerId s :
  onBlockReceive env fuel data peerId s =
  if isActive s
  then (Returned tt,
        add_effect
          (Log LDebug "Client is syncing. Can't process new block at the moment.") s)
  else
    match readPost env data with
    | NotBuffer =>
        (Returned tt,
         add_effect (ApplyPenaltyOnPeer peerId 100)
           (add_effect (Log LWarn "Received invalid post block data") s))
    | Undecodable warning error =>
        (Thrown error,
         add_effect (ApplyPenaltyOnPeer peerId 100)
           (add_effect (Log LWarn warning) s))
    | Decoded block =>
        match _execute env fuel block peerId s with
        | (Thrown error, s') =>
            (Thrown error,
             match cls error with
             | ApplyPenaltyError =>
                 add_effect (ApplyPenaltyOnPeer peerId 100)
                   (add_effect invalidBlockLog s')
             | _ => s'
             end)
        | r => r
        end
    end.
Proof.
  unfold onBlockReceive, readPost. unfold bind at 1, gets at 1.
  destruct (isActive s); [reflexivity|].
  destruct data as [bytes|]; [|reflexivity].
  destruct (codec_decode env bytes) as [error|blockBytes]; [reflexivity|].
  destruct (Block_fromBytes env blockBytes) as [error|block]; [reflexivity|].
  unfold try_catch.
  destruct (_execute env fuel block peerId s) as [[u|error| |] s'];
    try reflexivity.
  destruct (cls error); reflexivity.
Qed.

Lemma penalties_app t1 t2 : penalties (t1 ++ t2) = penalties t1 ++ penalties t2.
Proof.
  induction t1 as [|[] t1 IH]; cbn; rewrite ?IH; reflexivity.
Qed.

Example garbled_post :
  onBlockReceive garbled 1 (BufferData "xx") "peer" state100
  = (Thrown (JsErrorOf "Invalid wire type"),
     add_effect (ApplyPenaltyOnPeer "peer" 100)
       (add_effect
          (Log LWarn "Received post block broadcast request in unexpected format")
          state100)).
Proof. reflexivity. Qed.

(** X3. A post that does not hold a block (not a buffer, or bytes that the
    codec or [Block.fromBytes] rejects) never reaches block processing and
    never touches the chain. While the node is syncing it is dropped like any
    other post, without a penalty. Otherwise the sender is penalised by 100,
    exactly once; the call then returns normally for a non-buffer and throws
    the decoder's own error for undecodable bytes. *)
Theorem malformed_post (env : Collaborators) (fuel : nat) (data : PostData)
    (peerId : string) (s : State) :
  (forall block, readPost env data <> Decoded block) ->
  let r := onBlockReceive env fuel data peerId s in
  _chain r.2 = _chain s /\ _mutex r.2 = _mutex s /\ calls r.2 = calls s /\
  withoutLogs (trace r.2)
    = withoutLogs (trace s)
      ++ (if isActive s then [] else [ApplyPenaltyOnPeer peerId 100]) /\
  r.1 = (if isActive s then Returned tt
         else match readPost env data with
              | Undecodable _ error => Thrown error
              | _ => Returned tt
              end).
Proof.
  intros Hpost r. unfold r. rewrite onBlockReceive_unfold.
  destruct (isActive s).
  - cbn. rewrite withoutLogs_app. cbn. rewrite !app_nil_r. auto.
  - destruct (readPost env data) as [|warning error|block].
    + cbn. rewrite !withoutLogs_app. cbn. rewrite app_nil_r. auto.
    + cbn. rewrite !withoutLogs_app. cbn. rewrite app_nil_r. auto.
    + now destruct (Hpost block).
Qed.

Lemma malformed_post_witness :
  let r := onBlockReceive garbled 1 (BufferData "xx") "peer" state100 in
  _chain r.2 = chain100 /\
  withoutLogs (trace r.2) = [ApplyPenaltyOnPeer "peer" 100] /\
  r.1 = Thrown (JsErrorOf "Invalid wire type").
Proof.
  assert (H : forall block, readPost garbled (BufferData "xx") <> Decoded block)
    by (intros block; cbn; discriminate).
  destruct (malformed_post garbled 1 (BufferData "xx") "peer" state100 H)
    as (H1 & _ & _ & H4 & H5).
  split; [exact H1|]. split; [exact H4|exact H5].
Defined.

(** ** [_execute]: the branches *)

Lemma execute_running env fuel block peerID s :
  _stop s = false -> _mutex s = false ->
  _execute env fuel block peerID s =
  released
    (match forkChoice env (calls s) (header block) (header (lastBlock (_chain s))) with
     | DISCARD =>
         (Returned tt,
          add_effect (Emit CONSENSUS_EVENT_FORK_DETECTED block)
            (add_effect (Log LDebug "Discarding block") (classified s)))
     | IDENTICAL_BLOCK =>
         (Returned tt,
          add_effect (Log LDebug "Block already processed") (classified s))
     | DOUBLE_FORGING =>
         (Returned tt,
          add_effect (Emit CONSENSUS_EVENT_FORK_DETECTED block)
            (add_effect (Log LWarn "Discarding block due to double forging")
               (classified s)))
     | DIFFERENT_CHAIN =>
         _sync env fuel block peerID
           (add_effect (Emit CONSENSUS_EVENT_FORK_DETECTED block)
              (add_effect (Log LDebug "Detected different chain to sync")
                 (classified s)))
     | TIE_BREAK =>
         tieBreakSwap env block (lastBlock (_chain s)) (tieBreakEntry block s)
     | VALID_BLOCK =>
         bind (_verify env block)
           (fun _ =>
              bind (_executeValidated env block no_options)
                (fun _ => effect (ApplyNodeInfo (nodeInfoOf block))))
           (validEntry s)
     end).
Proof.
  intros Hstop Hmutex.
  unfold _execute, runExclusive.
  unfold bind at 1, gets at 1. rewrite Hstop, Hmutex.
  unfold bind at 1, effect at 1, modify at 1.
  unfold bind at 1, gets at 1.
  unfold bind at 1, call at 1. cbn [calls _chain add_effect set_mutex next_call].
  rewrite includes_forkStatusList. cbn [negb].
  unfold released, classified, tieBreakSwap, tieBreakEntry, validEntry,
    restoreLog, restoreOptions, nodeInfoOf.
  destruct (forkChoice env (calls s) (header block) (header (lastBlock (_chain s))));
    reflexivity.
Qed.

Lemma executeValidated_thrown env block options s e s' :
  _executeValidated env block options s = (Thrown e, s') ->
  _chain s' = _chain s /\ _mutex s' = _mutex s /\
  (trace s' = trace s \/
   trace s' = trace s ++ [NetworkSend block;
                          Emit CONSENSUS_EVENT_BLOCK_BROADCAST block]).
Proof.
  rewrite executeValidated_unfold. cbv zeta. unfold broadcast.
  destruct (stateMachine_verifyBlock _ _ _ _).
  { intros [= <- <-]. cbn. auto. }
  destruct (stateMachine_executeBlock _ _ _ _).
  { intros [= <- <-]. destruct (negb _); cbn; rewrite <- ?app_assoc; auto. }
  destruct (bftAPI_getBFTHeights _ _ _ _).
  { intros [= <- <-]. destruct (negb _); cbn; rewrite <- ?app_assoc; auto. }
  destruct (db_write _ _ _ _).
  { intros [= <- <-]. destruct (negb _); cbn; rewrite <- ?app_assoc; auto. }
  discriminate.
Qed.

Lemma executeValidated_returned env block options s b s' :
  _executeValidated env block options s = (Returned b, s') ->
  b = block /\
  lastBlock (_chain s') = block /\
  previousBlocks (_chain s') = lastBlock (_chain s) :: previousBlocks (_chain s) /\
  _mutex s' = _mutex s /\
  trace s' = trace s
             ++ (if truthy (skipBroadcast options) then []
                 else [NetworkSend block;
                       Emit CONSENSUS_EVENT_BLOCK_BROADCAST block])
             ++ [Emit CONSENSUS_EVENT_BLOCK_NEW block].
Proof.
  rewrite executeValidated_unfold. cbv zeta. unfold broadcast.
  destruct (stateMachine_verifyBlock _ _ _ _); [discriminate|].
  destruct (stateMachine_executeBlock _ _ _ _); [discriminate|].
  destruct (bftAPI_getBFTHeights _ _ _ _); [discriminate|].
  destruct (db_write _ _ _ _); [discriminate|].
  intros [= <- <-]. destruct (truthy _); cbn; rewrite <- ?app_assoc; auto.
Qed.

Lemma deleteBlock_unfold env block saveTemp s :
  _deleteBlock env block saveTemp s =
  if (h_height (header block) <=? finalizedHeight (_chain s))%Z
  then (Thrown deleteBelowFinalized, s)
  else
    match db_write env (calls s) block (_chain s) with
    | Some e => (Thrown e, next_call s)
    | None =>
        match previousBlocks (_chain s) with
        | [] => (Thrown (JsErrorOf "Cannot delete genesis block"), next_call s)
        | p :: rest =>
            (Returned tt,
             add_effect (Emit CONSENSUS_EVENT_BLOCK_DELETE block)
               (set_chain
                  {| lastBlock := p; previousBlocks := rest;
                     finalizedHeight := finalizedHeight (_chain s);
                     tempBlocks := if saveTemp then block :: tempBlocks (_chain s)
                                   else tempBlocks (_chain s) |}
                  (next_call s)))
        end
    end.
Proof.
  unfold _deleteBlock. unfold bind at 1, gets at 1.
  destruct (_ <=? _)%Z; [reflexivity|]. promise.
  destruct (db_write _ _ _ _); [reflexivity|].
  destruct (previousBlocks (_chain s)); reflexivity.
Qed.

Lemma verify_fails env block s :
  h_version (header block) <> BLOCK_VERSION \/
  chain_verifyBlock env (calls s) block (_chain s) <> None ->
  exists e s',
    _verify env block s = (Thrown e, s') /\ cls e = ApplyPenaltyError /\
    _chain s' = _chain s /\ trace s' = trace s /\ _mutex s' = _mutex s.
Proof.
  intros H. rewrite verify_unfold.
  destruct (Z.eqb_spec (h_version (header block)) BLOCK_VERSION) as [E|E];
    cbn [negb]; [|eexists _, _; repeat split].
  destruct H as [H|H]; [contradiction|].
  destruct (chain_verifyBlock _ _ _ _); [|contradiction].
  eexists _, _; repeat split.
Qed.

Example state_machine_rejects_valid_block :
  let env := rejecting "H101" 98 VALID_BLOCK block101 in
  let r := onBlockReceive env 1 (BufferData "bytes") "peer" state100 in
  r.1 = Thrown (JsErrorOf "Invalid transaction") /\ _chain r.2 = chain100 /\
  penalties (trace r.2) = [].
Proof. repeat split; reflexivity. Qed.

(** X4. Only verification failures are penalised. When a received block is
    classified VALID_BLOCK and passes [_verify], and executing it then
    throws an error that is not an ApplyPenaltyError (the state machine, the
    BFT query or the save failed), [onBlockReceive] throws that error on
    with the mutex released: the chain is unchanged, the sender is not
    penalised and no node info is sent. *)
Theorem execution_failure_not_penalised (env : Collaborators) (fuel : nat)
    (data : PostData) (block : Block) (peerId : string) (s s1 s2 : State)
    (e : Exception) :
  isActive s = false -> _stop s = false -> _mutex s = false ->
  readPost env data = Decoded block ->
  forkChoice env (calls s) (header block) (header (lastBlock (_chain s))) = VALID_BLOCK ->
  _verify env block (validEntry s) = (Returned tt, s1) ->
  _executeValidated env block no_options s1 = (Thrown e, s2) ->
  cls e <> ApplyPenaltyError ->
  onBlockReceive env fuel data peerId s = (Thrown e, set_mutex false s2) /\
  _chain s2 = _chain s /\
  penalties (trace s2) = penalties (trace s) /\
  nodeInfos (trace s2) = nodeInfos (trace s).
Proof.
  intros Hsync Hstop Hmutex Hpost Hfc Hverify Hexec Hcls.
  rewrite onBlockReceive_unfold, Hsync, Hpost.
  rewrite execute_running by assumption. rewrite Hfc.
  unfold bind at 1. rewrite Hverify. unfold bind at 1. rewrite Hexec.
  cbn [released].
  split; [destruct (cls e); try reflexivity; contradiction|].
  apply verify_returns in Hverify as [-> _].
  apply executeValidated_thrown in Hexec as (Hchain & _ & Htrace).
  split; [rewrite Hchain; reflexivity|].
  destruct Htrace as [-> | ->]; cbn;
    rewrite ?penalties_app, ?nodeInfos_app; cbn; rewrite ?app_nil_r; auto.
Qed.

Lemma execution_failure_not_penalised_witness :
  let env := rejecting "H101" 98 VALID_BLOCK block101 in
  exists s2,
    onBlockReceive env 1 (BufferData "bytes") "peer" state100
      = (Thrown (JsErrorOf "Invalid transaction"), set_mutex false s2) /\
    _chain s2 = chain100 /\ penalties (trace s2) = [].
Proof.
  intros env.
  pose (s1 := next_call (validEntry state100)).
  pose (s2 := (_executeValidated env block101 no_options s1).2).
  exists s2.
  assert (Hcls : cls (JsErrorOf "Invalid transaction") <> ApplyPenaltyError)
    by (cbn; discriminate).
  destruct (execution_failure_not_penalised env 1 (BufferData "bytes") block101
              "peer" state100 s1 s2 (JsErrorOf "Invalid transaction")
              eq_refl eq_refl eq_refl eq_refl eq_refl eq_refl eq_refl Hcls)
    as (H1 & H2 & H3 & _).
  split; [exact H1|]. split; [exact H2|exact H3].
Defined.

(** X5. [_verify] turns every failure into an ApplyPenaltyError. It throws
    nothing else and never stays pending; a thrown error carries "Block
    version must be 2" when the version is wrong, in which case
    [chain.verifyBlock] is not consulted, and otherwise the message of the
    error of [chain.verifyBlock], or "Invalid block to be processed" when
    that error has none. It returns exactly when the version is current and
    [chain.verifyBlock] returns, and it never changes the chain or the
    trace. *)
Theorem verify_wraps_failures (env : Collaborators) (block : Block) (s : State) :
  match _verify env block s with
  | (Returned _, s') =>
      h_version (header block) = BLOCK_VERSION /\
      chain_verifyBlock env (calls s) block (_chain s) = None /\
      s' = next_call s
  | (Thrown e, s') =>
      cls e = ApplyPenaltyError /\ _chain s' = _chain s /\ trace s' = trace s /\
      (h_version (header block) <> BLOCK_VERSION ->
       message e = Some "Block version must be 2" /\ s' = s) /\
      (h_version (header block) = BLOCK_VERSION ->
       exists error,
         chain_verifyBlock env (calls s) block (_chain s) = Some error /\
         message e = Some (or_default (message error)
                             "Invalid block to be processed"))
  | (Pending, _) | (OutOfFuel, _) => False
  end.
Proof.
  rewrite verify_unfold.
  destruct (Z.eqb_spec (h_version (header block)) BLOCK_VERSION) as [E|E];
    cbn [negb].
  - destruct (chain_verifyBlock env (calls s) block (_chain s)) as [error|].
    + repeat split; [contradiction|contradiction|]. intros _. eauto.
    + auto.
  - repeat split; try contradiction; auto.
Qed.

Example verify_keeps_message :
  (_verify (unverifiable VALID_BLOCK block101) block101 state100).1
  = Thrown {| cls := ApplyPenaltyError; message := Some "Invalid signature" |}.
Proof. reflexivity. Qed.

(** X6. A received block that fork choice classifies DISCARD or
    DOUBLE_FORGING is not verified and not executed: on a running node
    [onBlockReceive] emits FORK_DETECTED for the block, once, and returns
    normally with the mutex released; the chain is unchanged and the sender
    is not penalised. *)
Theorem discarded_block_only_reported (env : Collaborators) (fuel : nat)
    (data : PostData) (block : Block) (peerId : string) (s : State) :
  isActive s = false -> _stop s = false -> _mutex s = false ->
  readPost env data = Decoded block ->
  forkChoice env (calls s) (header block) (header (lastBlock (_chain s))) = DISCARD \/
  forkChoice env (calls s) (header block) (header (lastBlock (_chain s))) = DOUBLE_FORGING ->
  let r := onBlockReceive env fuel data peerId s in
  r.1 = Returned tt /\ _chain r.2 = _chain s /\ _mutex r.2 = false /\
  calls r.2 = S (calls s) /\
  withoutLogs (trace r.2)
    = withoutLogs (trace s) ++ [Emit CONSENSUS_EVENT_FORK_DETECTED block].
Proof.
  intros Hsync Hstop Hmutex Hpost Hfc r. unfold r.
  rewrite onBlockReceive_unfold, Hsync, Hpost.
  rewrite execute_running by assumption.
  destruct Hfc as [-> | ->]; cbn; rewrite !withoutLogs_app; cbn;
    rewrite !app_nil_r; auto.
Qed.

Lemma discarded_block_only_reported_witness :
  let r := onBlockReceive (agreeable 98 DOUBLE_FORGING block100' SyncReturn) 1
             (BufferData "bytes") "peer" state100 in
  r.1 = Returned tt /\ _chain r.2 = chain100 /\
  withoutLogs (trace r.2) = [Emit CONSENSUS_EVENT_FORK_DETECTED block100'].
Proof.
  destruct (discarded_block_only_reported
              (agreeable 98 DOUBLE_FORGING block100' SyncReturn) 1
              (BufferData "bytes") block100' "peer" state100
              eq_refl eq_refl eq_refl eq_refl (or_intror eq_refl))
    as (H1 & H2 & _ & _ & H5).
  split; [exact H1|]. split; [exact H2|exact H5].
Defined.

(** ** The tie-break swap, when it goes through *)

(** X7. A tie-break swap that goes through replaces the tip and nothing
    below it. When the new block H passes [_verify], the old tip T is
    deleted and executing H returns, [_execute] returns with the mutex
    released, H is the tip on top of the blocks that were below T, and the
    events are, in this order, FORK_DETECTED(H), BLOCK_DELETE(T), the
    network send and BLOCK_BROADCAST of H, BLOCK_NEW(H). *)
Theorem tie_break_swaps_tip (env : Collaborators) (fuel : nat)
    (block : Block) (peerID : string) (s s1 s2 s3 : State) (b : Block) :
  _stop s = false -> _mutex s = false ->
  forkChoice env (calls s) (header block) (header (lastBlock (_chain s))) = TIE_BREAK ->
  _verify env block (tieBreakEntry block s) = (Returned tt, s1) ->
  _deleteBlock env (lastBlock (_chain s)) false s1 = (Returned tt, s2) ->
  _executeValidated env block no_options s2 = (Returned b, s3) ->
  _execute env fuel block peerID s = (Returned tt, set_mutex false s3) /\
  lastBlock (_chain s3) = block /\
  previousBlocks (_chain s3) = previousBlocks (_chain s) /\
  tempBlocks (_chain s3) = tempBlocks (_chain s) /\
  withoutLogs (trace s3)
    = withoutLogs (trace s)
      ++ [Emit CONSENSUS_EVENT_FORK_DETECTED block;
          Emit CONSENSUS_EVENT_BLOCK_DELETE (lastBlock (_chain s));
          NetworkSend block;
          Emit CONSENSUS_EVENT_BLOCK_BROADCAST block;
          Emit CONSENSUS_EVENT_BLOCK_NEW block].
Proof.
  intros Hstop Hmutex Hfc Hverify Hdelete Hexec.
  split.
  { rewrite execute_running by assumption. rewrite Hfc. unfold tieBreakSwap.
    unfold bind at 1. rewrite Hverify. unfold bind at 1. rewrite Hdelete.
    unfold try_catch, bind at 1. rewrite Hexec. reflexivity. }
  apply verify_returns in Hverify as [-> _].
  rewrite deleteBlock_unfold in Hdelete.
  destruct (_ <=? _)%Z; [discriminate|].
  destruct (db_write _ _ _ _); [discriminate|].
  cbn [_chain next_call tieBreakEntry add_effect set_mutex] in Hdelete.
  destruct (previousBlocks (_chain s)) as [|p rest] eqn:Hprev; [discriminate|].
  injection Hdelete as <-.
  rewrite executeValidated_unfold in Hexec. cbv zeta in Hexec.
  destruct (stateMachine_verifyBlock _ _ _ _); [discriminate|].
  destruct (stateMachine_executeBlock _ _ _ _); [discriminate|].
  destruct (bftAPI_getBFTHeights _ _ _ _); [discriminate|].
  destruct (db_write _ _ _ _); [discriminate|].
  injection Hexec as _ <-.
  cbn. rewrite !withoutLogs_app. cbn. rewrite !app_nil_r, <- !app_assoc.
  auto.
Qed.

Lemma tie_break_swaps_tip_witness :
  let env := agreeable 98 TIE_BREAK block100' SyncReturn in
  exists s3,
    _execute env 1 block100' "peer" state100 = (Returned tt, set_mutex false s3) /\
    lastBlock (_chain s3) = block100' /\
    previousBlocks (_chain s3) = [block99].
Proof.
  intros env.
  pose (s1 := next_call (tieBreakEntry block100' state100)).
  pose (s2 := (_deleteBlock env block100 false s1).2).
  pose (s3 := (_executeValidated env block100' no_options s2).2).
  exists s3.
  destruct (tie_break_swaps_tip env 1 block100' "peer" state100 s1 s2 s3 block100'
              eq_refl eq_refl eq_refl eq_refl eq_refl eq_refl)
    as (H1 & H2 & H3 & _).
  split; [exact H1|]. split; [exact H2|exact H3].
Defined.

(** X8. A received block that fails [_verify] never displaces anything. On
    a running node, when the block is classified VALID_BLOCK or TIE_BREAK
    and either its version is wrong or [chain.verifyBlock] rejects it,
    [onBlockReceive] throws an ApplyPenaltyError and penalises the sender by
    100, once. The chain is unchanged: on a tie break the old tip has not
    been deleted, because the verification comes before the deletion; no
    block event other than the FORK_DETECTED of a tie break is emitted and
    nothing is sent to the network. *)
Theorem unverified_block_never_applied (env : Collaborators) (fuel : nat)
    (data : PostData) (block : Block) (peerId : string) (s : State) :
  isActive s = false -> _stop s = false -> _mutex s = false ->
  readPost env data = Decoded block ->
  forkChoice env (calls s) (header block) (header (lastBlock (_chain s))) = VALID_BLOCK \/
  forkChoice env (calls s) (header block) (header (lastBlock (_chain s))) = TIE_BREAK ->
  h_version (header block) <> BLOCK_VERSION \/
  chain_verifyBlock env (S (calls s)) block (_chain s) <> None ->
  exists e s',
    onBlockReceive env fuel data peerId s = (Thrown e, s') /\
    cls e = ApplyPenaltyError /\
    _chain s' = _chain s /\ _mutex s' = false /\
    withoutLogs (trace s')
      = withoutLogs (trace s)
        ++ (match forkChoice env (calls s) (header block)
                    (header (lastBlock (_chain s))) with
            | TIE_BREAK => [Emit CONSENSUS_EVENT_FORK_DETECTED block]
            | _ => []
            end)
        ++ [ApplyPenaltyOnPeer peerId 100].
Proof.
  intros Hsync Hstop Hmutex Hpost Hfc Hbad.
  rewrite onBlockReceive_unfold, Hsync, Hpost.
  rewrite execute_running by assumption.
  destruct Hfc as [Hfc|Hfc]; rewrite Hfc.
  - destruct (verify_fails env block (validEntry s) Hbad)
      as (e & s1 & Hv & Hcls & Hchain & Htrace & Hm).
    unfold bind at 1. rewrite Hv. cbn [released]. rewrite Hcls.
    eexists _, _. split; [reflexivity|]. split; [exact Hcls|].
    cbn. rewrite Hchain, !withoutLogs_app, Htrace. cbn.
    rewrite !withoutLogs_app. cbn. rewrite !app_nil_r. auto.
  - destruct (verify_fails env block (tieBreakEntry block s) Hbad)
      as (e & s1 & Hv & Hcls & Hchain & Htrace & Hm).
    unfold tieBreakSwap. unfold bind at 1. rewrite Hv. cbn [released].
    rewrite Hcls.
    eexists _, _. split; [reflexivity|]. split; [exact Hcls|].
    cbn. rewrite Hchain, !withoutLogs_app, Htrace. cbn.
    rewrite !withoutLogs_app. cbn. rewrite !app_nil_r, <- !app_assoc. auto.
Qed.

Lemma unverified_block_never_applied_witness :
  let env := unverifiable TIE_BREAK block100' in
  exists e s',
    onBlockReceive env 1 (BufferData "bytes") "peer" state100 = (Thrown e, s') /\
    cls e = ApplyPenaltyError /\ _chain s' = chain100 /\
    withoutLogs (trace s')
      = [Emit CONSENSUS_EVENT_FORK_DETECTED block100';
         ApplyPenaltyOnPeer "peer" 100].
Proof.
  intros env.
  assert (Hbad : h_version (header block100') <> BLOCK_VERSION \/
                 chain_verifyBlock env (S (calls state100)) block100'
                   (_chain state100) <> None)
    by (right; cbn; discriminate).
  destruct (unverified_block_never_applied env 1 (BufferData "bytes") block100'
              "peer" state100 eq_refl eq_refl eq_refl eq_refl
              (or_intror eq_refl) Hbad)
    as (e & s' & H1 & H2 & H3 & _ & H5).
  exists e, s'. split; [exact H1|]. split; [exact H2|]. split; [exact H3|exact H5].
Defined.

(** ** [skipBroadcast] *)

(** X9. With [skipBroadcast] set, [_executeValidated] never sends the block
    to the network and never emits BLOCK_BROADCAST, however it ends: it adds
    nothing to the trace when it throws and exactly BLOCK_NEW when it
    returns. This is the call that restores the old tip after a failed tie
    break. *)
Theorem skipBroadcast_never_sends (env : Collaborators) (block : Block)
    (options : ExecuteOptions) (s : State) :
  truthy (skipBroadcast options) = true ->
  let r := _executeValidated env block options s in
  match r.1 with
  | Returned b =>
      b = block /\ lastBlock (_chain r.2) = block /\
      trace r.2 = trace s ++ [Emit CONSENSUS_EVENT_BLOCK_NEW block]
  | Thrown _ => trace r.2 = trace s /\ _chain r.2 = _chain s
  | Pending | OutOfFuel => False
  end.
Proof.
  intros Hskip r. unfold r. rewrite executeValidated_unfold. cbv zeta.
  unfold broadcast. rewrite Hskip. cbn [negb].
  destruct (stateMachine_verifyBlock _ _ _ _); [cbn; auto|].
  destruct (stateMachine_executeBlock _ _ _ _); [cbn; auto|].
  destruct (bftAPI_getBFTHeights _ _ _ _); [cbn; auto|].
  destruct (db_write _ _ _ _); cbn; auto.
Qed.

Lemma skipBroadcast_never_sends_witness :
  let r := _executeValidated (agreeable 98 VALID_BLOCK block101 SyncReturn)
             block101 restoreOptions state100 in
  r.1 = Returned block101 /\
  trace r.2 = [Emit CONSENSUS_EVENT_BLOCK_NEW block101].
Proof.
  intros r.
  pose proof (skipBroadcast_never_sends
                (agreeable 98 VALID_BLOCK block101 SyncReturn)
                block101 restoreOptions state100 eq_refl) as H.
  split; [reflexivity|]. exact (proj2 (proj2 H)).
Defined.

(** ** Synchronising while the mutex is held *)

Example sync_deleting_tip_outside_execute :
  let env := agreeable 98 DIFFERENT_CHAIN block101 syncDeletesTip in
  let r := _sync env 1 block101 "peer" state100 in
  r.1 = Returned tt /\ lastBlock (_chain r.2) = block99.
Proof. repeat split; reflexivity. Qed.

Lemma deleteLastBlock_mutex_held env o s :
  _stop s = false -> _mutex s = true ->
  _deleteLastBlock env o s = (Pending, s).
Proof.
  intros Hstop Hmutex. unfold _deleteLastBlock, bind, gets, runExclusive.
  rewrite Hstop, Hmutex. reflexivity.
Qed.

Lemma Synchronizer_run_unfold env block peerID s :
  Synchronizer_run env block peerID s =
  match runMechanism env (synchronizer_run env (calls s) block peerID (_chain s))
          (set_isActive true (next_call s)) with
  | (Returned a, s') => (Returned a, set_isActive false s')
  | (Thrown e, s') => (Thrown e, set_isActive false s')
  | r => r
  end.
Proof. reflexivity. Qed.

(** X10. [_execute] awaits [_sync] inside [runExclusive], and the
    [deleteLastBlock] of the BlockExecutor asks for the same mutex. So when
    a received block is classified DIFFERENT_CHAIN and the synchronizer
    starts by deleting the tip through the BlockExecutor, the deletion, and
    with it [onBlockReceive], never settles: FORK_DETECTED has been emitted,
    the chain is unchanged, the mutex stays held and the synchronizer stays
    active. *)
Theorem sync_delete_inside_execute_never_settles (env : Collaborators)
    (fuel : nat) (data : PostData) (block : Block) (peerId : string)
    (s : State) (o : DeleteOptions) (k : option Exception -> Chain -> SyncProg) :
  isActive s = false -> _stop s = false -> _mutex s = false ->
  readPost env data = Decoded block ->
  forkChoice env (calls s) (header block) (header (lastBlock (_chain s)))
    = DIFFERENT_CHAIN ->
  synchronizer_run env (S (calls s)) block peerId (_chain s)
    = SyncDeleteLastBlock o k ->
  let r := onBlockReceive env (S fuel) data peerId s in
  r.1 = Pending /\ _chain r.2 = _chain s /\ _mutex r.2 = true /\
  isActive r.2 = true /\
  withoutLogs (trace r.2)
    = withoutLogs (trace s) ++ [Emit CONSENSUS_EVENT_FORK_DETECTED block].
Proof.
  intros Hsync Hstop Hmutex Hpost Hfc Hrun r.
  set (s0 := add_effect (Emit CONSENSUS_EVENT_FORK_DETECTED block)
               (add_effect (Log LDebug "Detected different chain to sync")
                  (classified s))).
  assert (Hr : r = (Pending, set_isActive true (next_call s0))).
  { unfold r. rewrite onBlockReceive_unfold, Hsync, Hpost.
    rewrite execute_running by assumption. rewrite Hfc. fold s0.
    rewrite sync_unfold.
    change (_stop s0) with (_stop s). rewrite Hstop.
    rewrite Synchronizer_run_unfold.
    change (calls s0) with (S (calls s)). change (_chain s0) with (_chain s).
    rewrite Hrun. cbn [runMechanism]. unfold bind at 1, settle at 1.
    rewrite deleteLastBlock_mutex_held by (cbn; assumption || reflexivity).
    reflexivity. }
  rewrite Hr. cbn. rewrite !withoutLogs_app. cbn. rewrite !app_nil_r. auto.
Qed.

Lemma sync_delete_inside_execute_never_settles_witness :
  let env := agreeable 98 DIFFERENT_CHAIN block101 syncDeletesTip in
  let r := onBlockReceive env 1 (BufferData "bytes") "peer" state100 in
  r.1 = Pending /\ _chain r.2 = chain100 /\ _mutex r.2 = true.
Proof.
  intros env r.
  destruct (sync_delete_inside_execute_never_settles env 0 (BufferData "bytes")
              block101 "peer" state100 {| saveTempBlock := Some true |}
              (fun _ _ => SyncReturn)
              eq_refl eq_refl eq_refl eq_refl eq_refl eq_refl)
    as (H1 & H2 & H3 & _).
  split; [exact H1|]. split; [exact H2|exact H3].
Defined.

(** ** Who is penalised *)

Section Grows.

Variable env : Collaborators.
Variable P : Effect -> Prop.

Hypothesis P_log : forall level msg, P (Log level msg).
Hypothesis P_emit : forall ev b, P (Emit ev b).
Hypothesis P_send : forall b, P (NetworkSend b).

Local Abbreviation adds := (framed (grows P)).

Lemma grows_refl s : grows P s s.
Proof. exists []. split; [symmetry; apply app_nil_r|constructor]. Qed.

Lemma grows_trans s1 s2 s3 : grows P s1 s2 -> grows P s2 s3 -> grows P s1 s3.
Proof.
  intros (l1 & H1 & F1) (l2 & H2 & F2). exists (l1 ++ l2). split.
  - rewrite H2, H1. symmetry. apply app_assoc.
  - apply Forall_app. split; assumption.
Qed.

Lemma grows_same_trace s s' : trace s' = trace s -> grows P s s'.
Proof.
  intros H. exists []. split; [rewrite H; symmetry; apply app_nil_r|constructor].
Qed.

Lemma grows_effect e s : P e -> grows P s (add_effect e s).
Proof. intros H. exists [e]. split; [reflexivity|]. now constructor. Qed.

Ltac grows_side :=
  first [ exact grows_refl | exact grows_trans
        | intros; apply grows_same_trace; reflexivity ].

Lemma adds_effect e : P e -> adds (effect e).
Proof. intros H s. now apply grows_effect. Qed.

Ltac adds_step :=
  lazymatch goal with
  | |- framed _ (ret _) => apply frame_ret; grows_side
  | |- framed _ (throw _) => apply frame_throw; grows_side
  | |- framed _ (gets _) => apply frame_gets; grows_side
  | |- framed _ call => apply frame_call; grows_side
  | |- framed _ (effect (Log _ _)) => apply adds_effect, P_log
  | |- framed _ (effect (Emit _ _)) => apply adds_effect, P_emit
  | |- framed _ (effect (NetworkSend _)) => apply adds_effect, P_send
  | |- framed _ (effect invalidBlockLog) => apply adds_effect, P_log
  | |- framed _ (effect restoreLog) => apply adds_effect, P_log
  | |- framed _ (effect _) => apply adds_effect; assumption
  | |- framed _ (penalise _) => apply adds_effect; assumption
  | |- framed _ (check _ _) => apply frame_check; grows_side
  | |- framed _ (getBFTHeights _ _) => apply frame_getBFTHeights; grows_side
  | |- framed _ (removeBlock _ _ _) => apply frame_removeBlock; grows_side
  | |- framed _ (_verify _ _) => apply frame_verify; grows_side
  | |- framed _ (bind _ _) => apply frame_bind; [grows_side| |intros ?]
  | |- framed _ (try_catch _ _) => apply frame_try_catch; [grows_side| |intros ?]
  | |- framed _ (settle _) => apply frame_settle
  | |- framed _ (runExclusive _) => apply frame_runExclusive; [grows_side..|]
  | |- framed _ (if _ then _ else _) => apply frame_if
  end.

Lemma adds_saveBlock block fh removeFromTemp :
  adds (saveBlock env block fh removeFromTemp).
Proof.
  intros s. unfold saveBlock. promise.
  destruct (db_write _ _ _ _); apply grows_same_trace; reflexivity.
Qed.

Lemma adds_executeValidated block options :
  adds (_executeValidated env block options).
Proof.
  unfold _executeValidated. repeat first [apply adds_saveBlock | adds_step].
Qed.

Lemma adds_deleteBlock block saveTemp : adds (_deleteBlock env block saveTemp).
Proof. unfold _deleteBlock. repeat adds_step. Qed.

Lemma adds_deleteLastBlock options : adds (_deleteLastBlock env options).
Proof.
  unfold _deleteLastBlock. repeat adds_step. apply adds_deleteBlock.
Qed.

Lemma adds_runMechanism p : adds (runMechanism env p).
Proof.
  induction p as [|e|o k IH|b o k IH|b k IH]; cbn [runMechanism];
    repeat adds_step;
    first [ apply adds_deleteLastBlock | apply adds_executeValidated | apply IH ].
Qed.

Lemma adds_Synchronizer_run block peerID : adds (Synchronizer_run env block peerID).
Proof.
  intros s. rewrite Synchronizer_run_unfold.
  pose proof (adds_runMechanism
                (synchronizer_run env (calls s) block peerID (_chain s))
                (set_isActive true (next_call s))) as H.
  destruct (runMechanism env _ _) as [[a|e| |] s1]; cbn [snd] in *;
    destruct H as (l & H & F); exists l; split; cbn; trivial.
Qed.

Lemma adds_sync fuel block peerID :
  P (ApplyPenaltyOnPeer peerID 100) -> adds (_sync env fuel block peerID).
Proof.
  intros Hp. induction fuel as [|fuel IH]; cbn [_sync].
  - intros s. apply grows_refl.
  - repeat adds_step. apply adds_Synchronizer_run.
    destruct (cls _); repeat adds_step; apply IH.
Qed.

Lemma adds_execute fuel block peerID :
  P (ApplyPenaltyOnPeer peerID 100) -> P (ApplyNodeInfo (nodeInfoOf block)) ->
  adds (_execute env fuel block peerID).
Proof.
  intros Hp Hn. unfold _execute. repeat adds_step.
  destruct (forkChoice _ _ _ _);
    repeat first
      [ apply adds_executeValidated | apply adds_deleteBlock
      | apply adds_sync; assumption | adds_step ].
Qed.

Lemma adds_onBlockReceive fuel data peerId :
  P (ApplyPenaltyOnPeer peerId 100) ->
  (forall block, readPost env data = Decoded block ->
                 P (ApplyNodeInfo (nodeInfoOf block))) ->
  adds (onBlockReceive env fuel data peerId).
Proof.
  intros Hp Hn. unfold onBlockReceive. repeat adds_step.
  destruct data as [bytes|]; [|repeat adds_step].
  cbn [readPost] in Hn.
  destruct (codec_decode env bytes) as [error|blockBytes]; [repeat adds_step|].
  destruct (Block_fromBytes env blockBytes) as [error|block]; [repeat adds_step|].
  repeat adds_step.
  - apply adds_execute; [assumption|]. now apply Hn.
  - destruct (cls _); repeat adds_step.
Qed.

End Grows.

Lemma Forall_penalisesOnly peerId added p n :
  Forall (penalisesOnly peerId) added -> In (p, n) (penalties added) ->
  p = peerId /\ n = 100%Z.
Proof.
  induction 1 as [|e added He _ IH]; cbn; [contradiction|].
  destruct e; cbn in *; try exact IH.
  intros [[= <- <-]|H]; [exact He|now apply IH].
Qed.

(** X11. Whatever a post holds and however processing it ends, the
    coordinator only adds to its trace, and every penalty [onBlockReceive]
    applies, the ones [_sync] applies for a restarting synchronizer included,
    is a penalty of 100 points against the peer that sent the post. The
    handler registered for posted blocks behaves the same and never throws:
    an error of [onBlockReceive] ends in the log. *)
Theorem penalties_only_for_sender (env : Collaborators) (fuel : nat)
    (data : PostData) (peerId : string) (s : State) :
  (exists added,
     trace (onBlockReceive env fuel data peerId s).2 = trace s ++ added /\
     forall p n, In (p, n) (penalties added) -> p = peerId /\ n = 100%Z) /\
  (exists added,
     trace (postBlockHandler env fuel data peerId s).2 = trace s ++ added /\
     forall p n, In (p, n) (penalties added) -> p = peerId /\ n = 100%Z) /\
  (forall e, (postBlockHandler env fuel data peerId s).1 <> Thrown e).
Proof.
  assert (H : grows (penalisesOnly peerId) s
                (onBlockReceive env fuel data peerId s).2).
  { apply adds_onBlockReceive; cbn; auto. }
  split; [|split].
  - destruct H as (added & H & F). exists added. split; [exact H|].
    intros p n. now apply Forall_penalisesOnly.
  - unfold postBlockHandler, try_catch.
    destruct (onBlockReceive env fuel data peerId s) as [[u|e| |] s'];
      cbn [snd] in *; destruct H as (added & H & F).
    1,3,4: exists added; split; [exact H|]; intros p n;
      now apply Forall_penalisesOnly.
    exists (added ++ [Log LError "Fail to handle received block"]). split.
    + cbn. rewrite H. symmetry. apply app_assoc.
    + intros p n. rewrite penalties_app. cbn. rewrite app_nil_r.
      now apply Forall_penalisesOnly.
  - intros e. unfold postBlockHandler, try_catch.
    destruct (onBlockReceive env fuel data peerId s) as [[u|e'| |] s'];
      discriminate.
Qed.

Example restarted_sync_penalises_sender :
  let r := postBlockHandler penalisingSync 3 (BufferData "bytes") "peer" state100 in
  r.1 = Returned tt /\
  penalties (trace r.2) = [("peer", 100%Z); ("peer", 100%Z)].
Proof. split; reflexivity. Qed.

(** ** The generator's [execute] *)

(** X12. [execute] applies the generator's block without fork choice and
    without [_verify]: neither the version of the block nor
    [chain.verifyBlock] nor the stop flag is consulted. With the mutex free,
    whenever the state machine verifies and executes the block, the BFT API
    answers and the save goes through, [execute] returns with the mutex
    released, the block is the tip on top of the old one, the finalized
    height is the larger of the old one and maxHeightPrecommitted, and the
    block has been sent to the network, BLOCK_BROADCAST and BLOCK_NEW
    emitted. *)
Theorem execute_applies_without_verifying (env : Collaborators) (block : Block)
    (s : State) (mhp : Z) :
  _mutex s = false ->
  stateMachine_verifyBlock env (calls s) block (_chain s) = None ->
  stateMachine_executeBlock env (S (calls s)) block (_chain s) = None ->
  bftAPI_getBFTHeights env (S (S (calls s))) block (_chain s) = inr mhp ->
  db_write env (S (S (S (calls s)))) block (_chain s) = None ->
  let r := execute env block s in
  r.1 = Returned tt /\ _mutex r.2 = false /\ _stop r.2 = _stop s /\
  lastBlock (_chain r.2) = block /\
  previousBlocks (_chain r.2) = lastBlock (_chain s) :: previousBlocks (_chain s) /\
  finalizedHeight (_chain r.2) = Z.max (finalizedHeight (_chain s)) mhp /\
  trace r.2 = trace s ++ [NetworkSend block;
                          Emit CONSENSUS_EVENT_BLOCK_BROADCAST block;
                          Emit CONSENSUS_EVENT_BLOCK_NEW block].
Proof.
  intros Hmutex Hv He Hb Hw r.
  assert (Hr : r =
    (Returned tt,
     set_mutex false
       (add_effect (Emit CONSENSUS_EVENT_BLOCK_NEW block)
          (set_chain
             {| lastBlock := block;
                previousBlocks := lastBlock (_chain s) :: previousBlocks (_chain s);
                finalizedHeight := Z.max (finalizedHeight (_chain s)) mhp;
                tempBlocks := tempBlocks (_chain s) |}
             (next_call (next_call (next_call
                (broadcast block no_options (next_call (set_mutex true s)))))))))).
  { unfold r, execute, runExclusive. rewrite Hmutex. unfold bind at 1.
    rewrite executeValidated_unfold. cbv zeta.
    cbn [calls _chain set_mutex]. rewrite Hv, He, Hb, Hw. reflexivity. }
  rewrite Hr. cbn. rewrite <- !app_assoc. auto 8.
Qed.

Lemma execute_applies_without_verifying_witness :
  let r := execute (unverifiable DISCARD block101) oldVersionBlock
             (set_stop true state100) in
  r.1 = Returned tt /\ lastBlock (_chain r.2) = oldVersionBlock.
Proof.
  destruct (execute_applies_without_verifying (unverifiable DISCARD block101)
              oldVersionBlock (set_stop true state100) 0
              eq_refl eq_refl eq_refl eq_refl eq_refl)
    as (H1 & _ & _ & H4 & _).
  split; [exact H1|exact H4].
Defined.

(** ** The block version, branch by branch *)

(** C8, as stated, fails: the version is checked by [_verify], which
    [_execute] calls only in the VALID_BLOCK and TIE_BREAK branches, after
    fork choice. A block of version 1 below the tip, which fork choice
    discards (the rule of section 4.1 does), is dropped without an error and
    without a penalty. *)
Lemma wrong_version_not_checked_before_fork_choice :
  let env := agreeable 98 DISCARD staleOldVersionBlock SyncReturn in
  let r := onBlockReceive env 1 (BufferData "bytes") "peer" state100 in
  h_version (header staleOldVersionBlock) <> BLOCK_VERSION /\
  forkChoice_rule (everySlot 0) (header staleOldVersionBlock) (header block100)
    = DISCARD /\
  r.1 = Returned tt /\
  trace r.2 = [Log LDebug "Starting to process block";
               Log LDebug "Discarding block";
               Emit CONSENSUS_EVENT_FORK_DETECTED staleOldVersionBlock].
Proof. cbn. repeat split; discriminate. Qed.

(** C8, amended. Take a received block whose version is not the current
    one, on a node that is neither syncing nor stopped. [_verify] throws
    ApplyPenaltyError "Block version must be 2" at it in every state. When
    fork choice classifies the block VALID_BLOCK or TIE_BREAK,
    [onBlockReceive] penalises the sending peer by 100 and throws that error
    on; the chain is not touched. When the block is classified DISCARD,
    IDENTICAL_BLOCK or DOUBLE_FORGING, [_verify] is not reached:
    [onBlockReceive] returns, without a penalty. When it is classified
    DIFFERENT_CHAIN, the synchronizer decides: if it starts by verifying the
    block through the BlockExecutor and does not catch the error,
    [onBlockReceive] throws the same error and penalises the sender by 100;
    if it returns without verifying, [onBlockReceive] returns without a
    penalty. *)
Theorem wrong_version_penalised (env : Collaborators) (fuel : nat)
    (bytes blockBytes : Bytes) (block : Block) (peerId : string) (s : State) :
  isActive s = false -> _stop s = false -> _mutex s = false ->
  codec_decode env bytes = inr blockBytes ->
  Block_fromBytes env blockBytes = inr block ->
  h_version (header block) <> BLOCK_VERSION ->
  let status :=
    forkChoice env (calls s) (header block) (header (lastBlock (_chain s))) in
  (forall st, _verify env block st = (Thrown versionError, st)) /\
  (status = VALID_BLOCK \/ status = TIE_BREAK ->
   exists s',
     onBlockReceive env fuel (BufferData bytes) peerId s = (Thrown versionError, s') /\
     _chain s' = _chain s /\
     exists t, trace s' = trace s ++ t ++ [invalidBlockLog; ApplyPenaltyOnPeer peerId 100] /\
               forall p n, ~ In (ApplyPenaltyOnPeer p n) t) /\
  (status = DISCARD \/ status = IDENTICAL_BLOCK \/ status = DOUBLE_FORGING ->
   exists s',
     onBlockReceive env fuel (BufferData bytes) peerId s = (Returned tt, s') /\
     _chain s' = _chain s /\ penalties (trace s') = penalties (trace s)) /\
  (status = DIFFERENT_CHAIN ->
   (forall k,
      synchronizer_run env (S (calls s)) block peerId (_chain s)
        = SyncVerify block k ->
      k (Some versionError) (_chain s) = SyncThrow versionError ->
      exists s',
        onBlockReceive env (S fuel) (BufferData bytes) peerId s
          = (Thrown versionError, s') /\
        _chain s' = _chain s /\
        penalties (trace s') = penalties (trace s) ++ [(peerId, 100%Z)]) /\
   (synchronizer_run env (S (calls s)) block peerId (_chain s) = SyncReturn ->
    exists s',
      onBlockReceive env (S fuel) (BufferData bytes) peerId s = (Returned tt, s') /\
      _chain s' = _chain s /\ penalties (trace s') = penalties (trace s))).
Proof.
  intros Hsync Hstop Hmutex Hdecode Hblock Hversion status.
  assert (Hpost : readPost env (BufferData bytes) = Decoded block)
    by (unfold readPost; now rewrite Hdecode, Hblock).
  split; [intros st; now apply verify_wrong_version|].
  split; [|split].
  - intros Hfc. unfold onBlockReceive. unfold bind at 1, gets at 1.
    rewrite Hsync, Hdecode, Hblock. unfold try_catch.
    destruct Hfc as [Hfc|Hfc].
    + rewrite execute_valid_block by assumption.
      rewrite verify_wrong_version by assumption.
      cbn [cls versionError]. promise.
      eexists. split; [reflexivity|]. split; [reflexivity|].
      exists [Log LDebug "Starting to process block";
              Log LDebug "Processing valid block"].
      split; [cbn; rewrite <- !app_assoc; reflexivity|].
      intros p n [H|[H|[]]]; discriminate.
    + rewrite execute_tie_break by assumption.
      unfold tieBreakSwap. unfold bind at 1.
      rewrite verify_wrong_version by assumption.
      cbn [cls versionError]. promise.
      eexists. split; [reflexivity|]. split; [reflexivity|].
      exists [Log LDebug "Starting to process block";
              Log LInfo "Received tie breaking block";
              Emit CONSENSUS_EVENT_FORK_DETECTED block].
      split; [cbn; rewrite <- !app_assoc; reflexivity|].
      intros p n [H|[H|[H|[]]]]; discriminate.
  - intros Hfc. rewrite onBlockReceive_unfold, Hsync, Hpost.
    rewrite execute_running by assumption. fold status.
    destruct Hfc as [Hfc|[Hfc|Hfc]]; rewrite Hfc; cbn [released];
      eexists; (split; [reflexivity|]); (split; [reflexivity|]);
      cbn; rewrite !penalties_app; cbn; now rewrite !app_nil_r.
  - intros Hfc.
    set (s0 := add_effect (Emit CONSENSUS_EVENT_FORK_DETECTED block)
                 (add_effect (Log LDebug "Detected different chain to sync")
                    (classified s))).
    eassert (Hreceive :
      onBlockReceive env (S fuel) (BufferData bytes) peerId s = _).
    { rewrite onBlockReceive_unfold, Hsync, Hpost.
      rewrite execute_running by assumption. fold status. rewrite Hfc.
      fold s0. rewrite (sync_unfold env fuel block peerId s0).
      change (_stop s0) with (_stop s). rewrite Hstop.
      rewrite Synchronizer_run_unfold.
      change (calls s0) with (S (calls s)). change (_chain s0) with (_chain s).
      reflexivity. }
    split.
    + intros k Hrun Hk. rewrite Hreceive, Hrun. cbn [runMechanism].
      unfold bind at 1, settle at 1.
      rewrite verify_wrong_version by assumption.
      unfold bind at 1, gets at 1.
      change (_chain (set_isActive true (next_call s0))) with (_chain s).
      rewrite Hk. cbn [runMechanism throw cls versionError released].
      eexists. split; [reflexivity|]. split; [reflexivity|].
      cbn. rewrite !penalties_app. cbn. now rewrite !app_nil_r.
    + intros Hrun. rewrite Hreceive, Hrun. cbn [runMechanism ret released].
      eexists. split; [reflexivity|]. split; [reflexivity|].
      cbn. rewrite !penalties_app. cbn. now rewrite !app_nil_r.
Qed.

Lemma wrong_version_penalised_witness :
  let valid := agreeable 98 VALID_BLOCK oldVersionBlock SyncReturn in
  let syncing := agreeable 98 DIFFERENT_CHAIN oldVersionBlock
                   (verifyingSync oldVersionBlock) in
  (exists s',
     onBlockReceive valid 1 (BufferData "bytes") "peer" state100
       = (Thrown versionError, s') /\
     _chain s' = chain100) /\
  (exists s',
     onBlockReceive syncing 1 (BufferData "bytes") "peer" state100
       = (Thrown versionError, s') /\
     _chain s' = chain100 /\
     penalties (trace s') = [("peer", 100%Z)]).
Proof.
  intros valid syncing.
  assert (Hv : h_version (header oldVersionBlock) <> BLOCK_VERSION)
    by (unfold BLOCK_VERSION; cbn; lia).
  split.
  - destruct (wrong_version_penalised valid 1 "bytes" "bytes" oldVersionBlock
                "peer" state100 eq_refl eq_refl eq_refl eq_refl eq_refl Hv)
      as (_ & H & _).
    destruct (H (or_introl eq_refl)) as (s' & H1 & H2 & _).
    exists s'. split; [exact H1|exact H2].
  - destruct (wrong_version_penalised syncing 0 "bytes" "bytes" oldVersionBlock
                "peer" state100 eq_refl eq_refl eq_refl eq_refl eq_refl Hv)
      as (_ & _ & _ & H).
    destruct (H eq_refl) as [Hverified _].
    exact (Hverified _ eq_refl eq_refl).
Defined.


End ConsensusProperties.

(** * Properties of the consensus state store *)

Module ConsensusStateStoreProperties.

Import ConsensusStateStore.

(** ** A store whose database holds a finalized height *)

Lemma finalize_example_by_constant :
  finalize FINALIZED_HEIGHT_KEY "consensus:" []
    (runAll FINALIZED_HEIGHT_KEY db98
       [Get FINALIZED_HEIGHT_KEY; Set_ FINALIZED_HEIGHT_KEY height100]
       empty_store)
  = Some ({| updated := []; created := []; deleted := [] |},
          [("consensus:finalizedHeight", Some height100)]).
Proof. vm_compute. reflexivity. Qed.

(** C10 fails on the code: [get] and [finalize] recognise the
    finalized-height key with [!==] and [===], which compare buffers by
    reference, while the maps are keyed by contents. Whatever the constant
    and the database prefix are: a caller that reads and then writes the
    finalized height through another buffer with the same contents gets its
    initial value cached, and [finalize] puts it in the reverse diff under
    the database key of the finalized height. *)
Theorem finalized_height_in_diff_by_contents
    (CONSENSUS_STATE_FINALIZED_HEIGHT_KEY key old new : Buffer)
    (DB_KEY_CONSENSUS_STATE : string) (db : string -> option Buffer)
    (batch : Batch) :
  equals key CONSENSUS_STATE_FINALIZED_HEIGHT_KEY = true ->
  same_object key CONSENSUS_STATE_FINALIZED_HEIGHT_KEY = false ->
  db (bytes CONSENSUS_STATE_FINALIZED_HEIGHT_KEY) = Some old ->
  equals old new = false ->
  let st := runAll CONSENSUS_STATE_FINALIZED_HEIGHT_KEY db
              [Get key; Set_ key new] empty_store in
  let dbKey := concatKeys DB_KEY_CONSENSUS_STATE CONSENSUS_STATE_FINALIZED_HEIGHT_KEY in
  _initialValue st !! bytes CONSENSUS_STATE_FINALIZED_HEIGHT_KEY = Some old /\
  finalize CONSENSUS_STATE_FINALIZED_HEIGHT_KEY DB_KEY_CONSENSUS_STATE batch st
  = Some ({| updated := [(dbKey, old)]; created := []; deleted := [] |},
          batch ++ [(dbKey, Some new)]).
Proof.
  intros Hbytes Hobject Hdb Hnew st dbKey.
  apply String.eqb_eq in Hbytes.
  assert (Hst : st =
    {| _data := <[bytes key := new]> (<[bytes key := old]> ∅);
       _originalData := ∅;
       _updatedKeys := [key];
       _originalUpdatedKeys := [];
       _initialValue := <[bytes key := old]> ∅ |}).
  { unfold st. cbn [runAll fold_left run].
    unfold get. cbn [_data empty_store].
    rewrite lookup_empty, Hbytes, Hdb, <- Hbytes, Hobject. reflexivity. }
  rewrite Hst. split.
  - cbn [_initialValue]. rewrite <- Hbytes. apply lookup_insert_eq.
  - unfold finalize. cbn [_updatedKeys length Nat.eqb finalize_keys _data
                          _initialValue].
    rewrite !lookup_insert_eq, Hobject, Hnew. cbn [negb updated created deleted].
    unfold dbKey, concatKeys. rewrite Hbytes. reflexivity.
Qed.

Lemma finalized_height_in_diff_by_contents_witness :
  let st := runAll FINALIZED_HEIGHT_KEY db98
              [Get sameBytesKey; Set_ sameBytesKey height100] empty_store in
  _initialValue st !! "finalizedHeight" = Some height98 /\
  finalize FINALIZED_HEIGHT_KEY "consensus:" [] st
  = Some ({| updated := [("consensus:finalizedHeight", height98)];
             created := []; deleted := [] |},
          [("consensus:finalizedHeight", Some height100)]).
Proof.
  exact (finalized_height_in_diff_by_contents FINALIZED_HEIGHT_KEY sameBytesKey
           height98 height100 "consensus:" db98 []
           eq_refl eq_refl eq_refl eq_refl).
Defined.

(** Read through the constant and written through the other buffer, the
    key is reported as created. *)
Example finalized_height_created_by_contents :
  finalize FINALIZED_HEIGHT_KEY "consensus:" []
    (runAll FINALIZED_HEIGHT_KEY db98
       [Get FINALIZED_HEIGHT_KEY; Set_ sameBytesKey height100] empty_store)
  = Some ({| updated := []; created := ["consensus:finalizedHeight"];
             deleted := [] |},
          [("consensus:finalizedHeight", Some height100)]).
Proof. vm_compute. reflexivity. Qed.

(** ** Copies *)

Lemma lookup_clone copies (m : gmap string Buffer) contents :
  clone copies m !! contents
  = (fun value => {| ref := copies contents; bytes := bytes value |})
      <$> m !! contents.
Proof.
  unfold clone. rewrite map_lookup_imap. now destruct (m !! contents).
Qed.

Lemma clone_is_Some copies (m : gmap string Buffer) contents :
  is_Some (m !! contents) -> is_Some (clone copies m !! contents).
Proof. intros [value H]. rewrite lookup_clone, H. cbn. eauto. Qed.

Lemma Forall_clone_is_Some copies (m : gmap string Buffer) keys :
  Forall (fun key => is_Some (m !! bytes key)) keys ->
  Forall (fun key => is_Some (clone copies m !! bytes key)) keys.
Proof.
  intros H. eapply Forall_impl; [exact H|]. intros key. apply clone_is_Some.
Qed.

(** ** Keys passed by the constant *)

Section ByConstant.

Variable FH : Buffer.
Variable PREFIX : string.
Variable db : string -> option Buffer.

Lemma concatKeys_inj prefix a b :
  concatKeys prefix a = concatKeys prefix b -> bytes a = bytes b.
Proof.
  unfold concatKeys. induction prefix as [|c prefix IH]; cbn; [trivial|].
  intros [= H]. now apply IH.
Qed.

Lemma same_object_by_constant key :
  by_constant FH key -> same_object key FH = false -> bytes key <> bytes FH.
Proof.
  unfold by_constant, same_object. intros Hc Hne Hb.
  apply Nat.eqb_neq in Hne. auto.
Qed.

Lemma Set_add_Forall (P : Buffer -> Prop) key keys :
  P key -> Forall P keys -> Forall P (Set_add key keys).
Proof.
  intros Hk Hks. unfold Set_add. destruct (existsb _ _); [assumption|].
  apply Forall_app. split; [assumption|]. constructor; [assumption|constructor].
Qed.

Lemma get_by_constant key st :
  by_constant FH key -> by_constant_store FH st ->
  by_constant_store FH (get FH db key st).2.
Proof.
  intros Hk (Hinit & Hu & Ho & Hd & Hod). unfold get.
  destruct (_data st !! bytes key) eqn:Hdata; [repeat split; assumption|].
  destruct (db (bytes key)) as [dbValue|]; [|repeat split; assumption].
  cbn. repeat split; try assumption.
  - destruct (same_object key FH) eqn:Hsame; cbn; [assumption|].
    rewrite lookup_insert_ne; [assumption|].
    now apply same_object_by_constant.
  - eapply Forall_impl; [exact Hd|]. cbn. intros k [v Hv].
    destruct (decide (bytes key = bytes k)) as [E|E].
    + rewrite E, lookup_insert_eq. eauto.
    + rewrite lookup_insert_ne by assumption. eauto.
Qed.

Lemma set_by_constant key value st :
  by_constant FH key -> by_constant_store FH st ->
  by_constant_store FH (set key value st).
Proof.
  intros Hk (Hinit & Hu & Ho & Hd & Hod). unfold set.
  repeat split; cbn; try assumption.
  - now apply Set_add_Forall.
  - apply Set_add_Forall; [rewrite lookup_insert_eq; eauto|].
    eapply Forall_impl; [exact Hd|]. cbn. intros k [v Hv].
    destruct (decide (bytes key = bytes k)) as [E|E].
    + rewrite E, lookup_insert_eq. eauto.
    + rewrite lookup_insert_ne by assumption. eauto.
Qed.

Lemma run_by_constant op st :
  Forall (by_constant FH) (key_of op) -> by_constant_store FH st ->
  by_constant_store FH (run FH db op st).
Proof.
  intros Hop Hst. destruct op as [key|key value|copies|copies]; cbn in *.
  - apply get_by_constant; [now inversion Hop|assumption].
  - apply set_by_constant; [now inversion Hop|assumption].
  - destruct Hst as (Hinit & Hu & Ho & Hd & Hod).
    repeat split; try assumption. now apply Forall_clone_is_Some.
  - destruct Hst as (Hinit & Hu & Ho & Hd & Hod).
    repeat split; try assumption. now apply Forall_clone_is_Some.
Qed.

Lemma runAll_by_constant ops st :
  Forall (fun op => Forall (by_constant FH) (key_of op)) ops ->
  by_constant_store FH st ->
  by_constant_store FH (runAll FH db ops st).
Proof.
  revert st. induction ops as [|op ops IH]; intros st Hops Hst; cbn;
    [assumption|].
  inversion Hops; subst. apply IH; [assumption|].
  now apply run_by_constant.
Qed.

Lemma empty_store_by_constant : by_constant_store FH empty_store.
Proof.
  unfold by_constant_store. cbn.
  split; [apply lookup_empty|]. repeat split; constructor.
Qed.

Lemma finalize_keys_by_constant st keys acc :
  Forall (by_constant FH) keys ->
  Forall (fun key => is_Some (_data st !! bytes key)) keys ->
  not_in_diff (concatKeys PREFIX FH) acc.1 ->
  exists diff batch,
    finalize_keys FH PREFIX st keys acc = Some (diff, batch) /\
    not_in_diff (concatKeys PREFIX FH) diff.
Proof.
  revert acc. induction keys as [|key keys IH]; intros [diff batch] Hc Hd Hacc.
  - cbn. eauto.
  - inversion Hc as [|? ? Hkey Hkeys]; subst.
    inversion Hd as [|? ? [v Hv] Hdata]; subst.
    cbn [finalize_keys]. rewrite Hv.
    destruct (same_object key FH) eqn:Hsame; [now apply IH|].
    assert (Hne : concatKeys PREFIX FH <> concatKeys PREFIX key).
    { intros E. apply concatKeys_inj in E.
      now apply (same_object_by_constant key Hkey Hsame). }
    destruct Hacc as (Hu & Hcr & Hdel). cbn in Hu, Hcr, Hdel.
    destruct (_initialValue st !! bytes key) as [initialValue|].
    + destruct (negb (equals initialValue v)); apply IH; trivial.
      * repeat split; cbn; trivial.
        rewrite map_app, in_app_iff. cbn. intuition.
      * repeat split; trivial.
    + apply IH; trivial. repeat split; cbn; trivial.
      rewrite in_app_iff. cbn. intuition.
Qed.

(** When every key that has the contents of the finalized-height key is the
    constant itself, the finalized height stays out of the diff: after any
    sequence of operations the initial
    value of the finalized height is not cached, [finalize] returns, and its
    diff does not name the database key of the finalized height. *)
Theorem finalized_height_not_in_diff_by_constant (ops : list Call)
    (batch : Batch) :
  Forall (fun op => Forall (by_constant FH) (key_of op)) ops ->
  let st := runAll FH db ops empty_store in
  _initialValue st !! bytes FH = None /\
  exists diff batch',
    finalize FH PREFIX batch st = Some (diff, batch') /\
    not_in_diff (concatKeys PREFIX FH) diff.
Proof.
  intros Hops st.
  destruct (runAll_by_constant ops empty_store Hops empty_store_by_constant)
    as (Hinit & Hu & _ & Hd & _).
  split; [exact Hinit|].
  unfold finalize. destruct (length (_updatedKeys st) =? 0)%nat.
  - eexists _, _. split; [reflexivity|]. repeat split; cbn; tauto.
  - apply finalize_keys_by_constant; trivial. repeat split; cbn; tauto.
Qed.

End ByConstant.

Lemma finalized_height_not_in_diff_by_constant_witness :
  let ops := [Get FINALIZED_HEIGHT_KEY; CreateSnapshot (copiesAt 10);
              Set_ FINALIZED_HEIGHT_KEY height100;
              Set_ validatorsKey validatorsValue] in
  exists diff batch',
    finalize FINALIZED_HEIGHT_KEY "consensus:" []
      (runAll FINALIZED_HEIGHT_KEY db98 ops empty_store)
    = Some (diff, batch') /\
    not_in_diff "consensus:finalizedHeight" diff.
Proof.
  intros ops.
  assert (Hops : Forall (fun op => Forall (by_constant FINALIZED_HEIGHT_KEY) (key_of op))
                   ops).
  { repeat constructor; intros H; try reflexivity; discriminate H. }
  exact (proj2 (finalized_height_not_in_diff_by_constant FINALIZED_HEIGHT_KEY
                  "consensus:" db98 ops [] Hops)).
Defined.

(** ** What [finalize] writes and reports *)

Section Finalize.

Variable FH : Buffer.
Variable PREFIX : string.
Variable db : string -> option Buffer.

Lemma lookup_insert_is_Some (m : gmap string Buffer) i j x :
  is_Some (m !! j) -> is_Some (<[i := x]> m !! j).
Proof.
  intros H. destruct (decide (i = j)) as [->|E].
  - rewrite lookup_insert_eq. eauto.
  - now rewrite lookup_insert_ne.
Qed.

Lemma run_covered op st : covered st -> covered (run FH db op st).
Proof.
  intros [Hd Ho]. destruct op as [key|key value|copies|copies]; cbn [run].
  - unfold get. destruct (_data st !! bytes key); [now split|].
    destruct (db (bytes key)); [|now split].
    split; [|exact Ho]. cbn.
    eapply Forall_impl; [exact Hd|]. intros k. apply lookup_insert_is_Some.
  - split; [|exact Ho]. cbn. apply Set_add_Forall.
    + rewrite lookup_insert_eq. eauto.
    + eapply Forall_impl; [exact Hd|]. intros k. apply lookup_insert_is_Some.
  - split; [exact Hd|]. now apply Forall_clone_is_Some.
  - split; [|exact Ho]. now apply Forall_clone_is_Some.
Qed.

Lemma runAll_covered ops st : covered st -> covered (runAll FH db ops st).
Proof.
  revert st. induction ops as [|op ops IH]; intros st H; cbn; [exact H|].
  apply IH. now apply run_covered.
Qed.

Lemma empty_store_covered : covered empty_store.
Proof. split; constructor. Qed.

Lemma run_initial_from op st :
  initial_from db st -> initial_from db (run FH db op st).
Proof.
  intros H. destruct op as [key|key value| |]; cbn [run]; try exact H.
  unfold get. destruct (_data st !! bytes key); [exact H|].
  destruct (db (bytes key)) as [dbValue|] eqn:Hdb; [|exact H].
  cbn. destruct (negb _); [|exact H].
  intros c v. cbn. destruct (decide (bytes key = c)) as [<-|E].
  - rewrite lookup_insert_eq. now intros [= <-].
  - rewrite lookup_insert_ne by assumption. apply H.
Qed.

Lemma runAll_initial_from ops st :
  initial_from db st -> initial_from db (runAll FH db ops st).
Proof.
  revert st. induction ops as [|op ops IH]; intros st H; cbn; [exact H|].
  apply IH. now apply run_initial_from.
Qed.

Lemma empty_store_initial_from : initial_from db empty_store.
Proof. intros c v. cbn. now rewrite lookup_empty. Qed.

(** The loop, entry by entry. *)
Lemma finalize_keys_result st keys diff batch diff' batch' :
  finalize_keys FH PREFIX st keys (diff, batch) = Some (diff', batch') ->
  batch' = batch ++ map (putOf PREFIX st) keys /\
  deleted diff' = deleted diff /\
  (forall dbKey v, In (dbKey, v) (updated diff') ->
     In (dbKey, v) (updated diff) \/
     exists key new,
       In key keys /\ dbKey = concatKeys PREFIX key /\
       _initialValue st !! bytes key = Some v /\
       _data st !! bytes key = Some new /\ equals v new = false) /\
  (forall dbKey, In dbKey (created diff') ->
     In dbKey (created diff) \/
     exists key,
       In key keys /\ dbKey = concatKeys PREFIX key /\
       _initialValue st !! bytes key = None).
Proof.
  revert diff batch. induction keys as [|key keys IH]; intros diff batch.
  - cbn. intros [= <- <-]. rewrite app_nil_r. auto.
  - cbn [finalize_keys].
    assert (Hstep : forall d,
      finalize_keys FH PREFIX st keys
        (d, batch ++ [(concatKeys PREFIX key, _data st !! bytes key)])
      = Some (diff', batch') ->
      batch' = batch ++ map (putOf PREFIX st) (key :: keys) /\
      deleted diff' = deleted d /\
      (forall dbKey v, In (dbKey, v) (updated diff') ->
         In (dbKey, v) (updated d) \/
         exists k new,
           In k keys /\ dbKey = concatKeys PREFIX k /\
           _initialValue st !! bytes k = Some v /\
           _data st !! bytes k = Some new /\ equals v new = false) /\
      (forall dbKey, In dbKey (created diff') ->
         In dbKey (created d) \/
         exists k,
           In k keys /\ dbKey = concatKeys PREFIX k /\
           _initialValue st !! bytes k = None)).
    { intros d H. apply IH in H as (Hb & Hd & Hu & Hc).
      split; [|auto]. rewrite Hb, <- app_assoc. reflexivity. }
    destruct (same_object key FH).
    { intros H. apply Hstep in H as (Hb & Hd & Hu & Hc).
      split; [exact Hb|]. split; [exact Hd|]. split.
      - intros dbKey v Hin. destruct (Hu dbKey v Hin) as [?|(k & new & ? & ?)];
          [now left|right; exists k, new; cbn; tauto].
      - intros dbKey Hin. destruct (Hc dbKey Hin) as [?|(k & ? & ?)];
          [now left|right; exists k; cbn; tauto]. }
    destruct (_initialValue st !! bytes key) as [initialValue|] eqn:Hinit.
    + destruct (_data st !! bytes key) as [updatedValue|] eqn:Hdata;
        [|discriminate].
      destruct (equals initialValue updatedValue) eqn:Heq; cbn [negb];
        intros H; apply Hstep in H as (Hb & Hd & Hu & Hc);
        (split; [exact Hb|]); (split; [exact Hd|]); split.
      * intros dbKey v Hin. destruct (Hu dbKey v Hin) as [?|(k & new & ? & ?)];
          [now left|right; exists k, new; cbn; tauto].
      * intros dbKey Hin. destruct (Hc dbKey Hin) as [?|(k & ? & ?)];
          [now left|right; exists k; cbn; tauto].
      * intros dbKey v Hin.
        destruct (Hu dbKey v Hin) as [Hin'|(k & new & ? & ?)];
          [|right; exists k, new; cbn; tauto].
        cbn in Hin'. apply in_app_iff in Hin' as [?|[[= <- <-]|[]]];
          [now left|].
        right. exists key, updatedValue. cbn. auto 6.
      * intros dbKey Hin. destruct (Hc dbKey Hin) as [?|(k & ? & ?)];
          [now left|right; exists k; cbn; tauto].
    + intros H; apply Hstep in H as (Hb & Hd & Hu & Hc).
      split; [exact Hb|]. split; [exact Hd|]. split.
      * intros dbKey v Hin. destruct (Hu dbKey v Hin) as [?|(k & new & ? & ?)];
          [now left|right; exists k, new; cbn; tauto].
      * intros dbKey Hin.
        destruct (Hc dbKey Hin) as [Hin'|(k & ? & ?)];
          [|right; exists k; cbn; tauto].
        cbn in Hin'. apply in_app_iff in Hin' as [?|[<-|[]]]; [now left|].
        right. exists key. cbn. auto.
Qed.

(** The loop does not throw when every key has a value. *)
Lemma finalize_keys_total st keys acc :
  Forall (fun key => is_Some (_data st !! bytes key)) keys ->
  is_Some (finalize_keys FH PREFIX st keys acc).
Proof.
  revert acc. induction keys as [|key keys IH]; intros [diff batch] H.
  - cbn. eauto.
  - inversion H as [|? ? [v Hv] Hkeys]; subst. cbn [finalize_keys]. rewrite Hv.
    destruct (same_object key FH); [now apply IH|].
    destruct (_initialValue st !! bytes key); [|now apply IH].
    destruct (negb _); now apply IH.
Qed.

Lemma finalize_reachable ops batch :
  let st := runAll FH db ops empty_store in
  exists diff,
    finalize FH PREFIX batch st
    = Some (diff, batch ++ map (putOf PREFIX st) (_updatedKeys st)) /\
    deleted diff = [] /\
    (forall dbKey v, In (dbKey, v) (updated diff) ->
       exists key new,
         In key (_updatedKeys st) /\ dbKey = concatKeys PREFIX key /\
         _initialValue st !! bytes key = Some v /\
         _data st !! bytes key = Some new /\ equals v new = false) /\
    (forall dbKey, In dbKey (created diff) ->
       exists key,
         In key (_updatedKeys st) /\ dbKey = concatKeys PREFIX key /\
         _initialValue st !! bytes key = None).
Proof.
  intros st.
  destruct (runAll_covered ops empty_store empty_store_covered) as [Hcov _].
  fold st in Hcov. unfold finalize.
  destruct (_updatedKeys st) as [|key keys] eqn:Hkeys.
  - cbn. exists emptyDiff. rewrite app_nil_r. cbn. repeat split; contradiction.
  - cbn [length Nat.eqb].
    destruct (finalize_keys_total st (key :: keys) (emptyDiff, batch) Hcov)
      as [[diff batch'] Hf].
    unfold emptyDiff in Hf. rewrite Hf.
    apply finalize_keys_result in Hf as (-> & Hd & Hu & Hc).
    exists diff. split; [reflexivity|]. split; [exact Hd|]. split.
    + intros dbKey v Hin. destruct (Hu dbKey v Hin) as [[]|H]. exact H.
    + intros dbKey Hin. destruct (Hc dbKey Hin) as [[]|H]. exact H.
Qed.

End Finalize.

Example finalize_two_keys :
  finalize FINALIZED_HEIGHT_KEY "consensus:" []
    (runAll FINALIZED_HEIGHT_KEY db2
       [Get validatorsKey; Set_ validatorsKey validatorsValue';
        Set_ FINALIZED_HEIGHT_KEY height100; Set_ validatorsKey validatorsValue']
       empty_store)
  = Some ({| updated := [("consensus:validators", validatorsValue)];
             created := []; deleted := [] |},
          [("consensus:validators", Some validatorsValue');
           ("consensus:finalizedHeight", Some height100)]).
Proof. vm_compute. reflexivity. Qed.

(** X13. On every store that [get], [set] and the snapshot methods can
    reach from a new one, [finalize] returns (the [equals] of an undefined
    value is never reached), reports no deletion, and appends to the batch
    exactly one put per updated key object, in the order the keys were first
    set, each with the database key of that key and its current value in
    the cache. *)
Theorem finalize_puts_current_values (FH : Buffer) (PREFIX : string)
    (db : string -> option Buffer) (ops : list Call) (batch : Batch) :
  let st := runAll FH db ops empty_store in
  exists diff,
    finalize FH PREFIX batch st
    = Some (diff, batch ++ map (putOf PREFIX st) (_updatedKeys st)) /\
    deleted diff = [] /\
    Forall (fun key => is_Some (_data st !! bytes key)) (_updatedKeys st).
Proof.
  intros st.
  destruct (finalize_reachable FH PREFIX db ops batch) as (diff & H & Hd & _).
  exists diff. split; [exact H|]. split; [exact Hd|].
  apply (runAll_covered FH db ops empty_store empty_store_covered).
Qed.

(** X14. What the reverse diff of a reachable store says is true of the
    database: every entry of [updated] names the database key of an updated
    key, holds the value the database has for it, and that value differs
    from the one being written; every key in [created] is the database key
    of an updated key whose initial value was never cached; and no database
    key is reported both as updated and as created. *)
Theorem diff_entries_are_faithful (FH : Buffer) (PREFIX : string)
    (db : string -> option Buffer) (ops : list Call) (batch : Batch) :
  let st := runAll FH db ops empty_store in
  exists diff batch',
    finalize FH PREFIX batch st = Some (diff, batch') /\
    (forall dbKey v, In (dbKey, v) (updated diff) ->
       exists key new,
         In key (_updatedKeys st) /\ dbKey = concatKeys PREFIX key /\
         db (bytes key) = Some v /\
         _data st !! bytes key = Some new /\ equals v new = false) /\
    (forall dbKey, In dbKey (created diff) ->
       exists key,
         In key (_updatedKeys st) /\ dbKey = concatKeys PREFIX key /\
         _initialValue st !! bytes key = None) /\
    (forall dbKey, In dbKey (map fst (updated diff)) -> ~ In dbKey (created diff)).
Proof.
  intros st.
  destruct (finalize_reachable FH PREFIX db ops batch)
    as (diff & H & _ & Hu & Hc).
  pose proof (runAll_initial_from FH db ops empty_store
                (empty_store_initial_from db)) as Hdb.
  fold st in Hu, Hc, Hdb.
  exists diff, (batch ++ map (putOf PREFIX st) (_updatedKeys st)).
  split; [exact H|]. split; [|split; [exact Hc|]].
  - intros dbKey v Hin.
    destruct (Hu dbKey v Hin) as (key & new & Hk & -> & Hi & Hd & He).
    exists key, new. repeat split; trivial. now apply Hdb.
  - intros dbKey Hin Hin'.
    apply in_map_iff in Hin as ([dk v] & <- & Hin). cbn in Hin'.
    destruct (Hu dk v Hin) as (key & new & _ & -> & Hi & _).
    destruct (Hc _ Hin') as (key' & _ & E & Hnone).
    apply concatKeys_inj in E. rewrite E in Hi. congruence.
Qed.

Lemma runAll_reads ops st :
  forallb (fun op => negb (isSet op)) ops = true ->
  _updatedKeys st = [] -> _originalUpdatedKeys st = [] ->
  forall FH db, _updatedKeys (runAll FH db ops st) = [].
Proof.
  intros Hops Hu Ho FH db. revert st Hu Ho.
  induction ops as [|op ops IH]; intros st Hu Ho; cbn; [exact Hu|].
  cbn in Hops. apply andb_true_iff in Hops as [Hop Hops].
  apply IH; [exact Hops| |]; destruct op as [key|key value| |];
    try discriminate; cbn; trivial;
    unfold get; destruct (_data st !! bytes key); trivial;
    destruct (db (bytes key)); trivial.
Qed.

(** X15. Reading writes nothing: after any sequence of [get],
    [createSnapshot] and [restoreSnapshot] on a new store, whatever the
    database holds, [finalize] returns the empty diff and leaves the batch as
    it was. *)
Theorem reads_leave_no_trace (FH : Buffer) (PREFIX : string)
    (db : string -> option Buffer) (ops : list Call) (batch : Batch) :
  forallb (fun op => negb (isSet op)) ops = true ->
  finalize FH PREFIX batch (runAll FH db ops empty_store)
  = Some (emptyDiff, batch).
Proof.
  intros Hops. unfold finalize.
  rewrite (runAll_reads ops empty_store Hops eq_refl eq_refl FH db).
  reflexivity.
Qed.

Lemma reads_leave_no_trace_witness :
  finalize FINALIZED_HEIGHT_KEY "consensus:" []
    (runAll FINALIZED_HEIGHT_KEY db2
       [Get validatorsKey; CreateSnapshot (copiesAt 10);
        Get FINALIZED_HEIGHT_KEY; RestoreSnapshot (copiesAt 12);
        Get validatorsKey'] empty_store)
  = Some (emptyDiff, []).
Proof.
  exact (reads_leave_no_trace FINALIZED_HEIGHT_KEY "consensus:" db2
           [Get validatorsKey; CreateSnapshot (copiesAt 10);
            Get FINALIZED_HEIGHT_KEY; RestoreSnapshot (copiesAt 12);
            Get validatorsKey'] [] eq_refl).
Defined.

(** X16. The cache answers by contents. A [get] that finds a value returns
    the same value to a later [get] through any buffer with the same
    contents, without asking the database again (the later [get] may face a
    database that has changed) and without changing the store; a [get] that
    finds nothing leaves the store as it was, so nothing is cached for a
    missing key. And a [get] after a [set] returns the value that was set. *)
Theorem cache_serves_by_contents (FH key key' value : Buffer)
    (db db' : string -> option Buffer) (st : Store) :
  bytes key' = bytes key ->
  get FH db' key' (set key value st) = (Some value, set key value st) /\
  match (get FH db key st).1 with
  | Some v => get FH db' key' (get FH db key st).2 = (Some v, (get FH db key st).2)
  | None =>
      (get FH db key st).2 = st /\ _data st !! bytes key = None /\
      db (bytes key) = None
  end.
Proof.
  intros Hb. split.
  - unfold get. cbn [_data set]. rewrite Hb, lookup_insert_eq. reflexivity.
  - assert (Hget : get FH db key st =
      match _data st !! bytes key with
      | Some v => (Some v, st)
      | None =>
          match db (bytes key) with
          | None => (None, st)
          | Some dbValue =>
              (Some dbValue,
               {| _data := <[bytes key := dbValue]> (_data st);
                  _originalData := _originalData st;
                  _updatedKeys := _updatedKeys st;
                  _originalUpdatedKeys := _originalUpdatedKeys st;
                  _initialValue :=
                    if negb (same_object key FH)
                    then <[bytes key := dbValue]> (_initialValue st)
                    else _initialValue st |})
          end
      end).
    { unfold get. destruct (_data st !! bytes key); [reflexivity|].
      destruct (db (bytes key)); [|reflexivity].
      rewrite lookup_insert_eq. reflexivity. }
    rewrite Hget.
    destruct (_data st !! bytes key) as [v|] eqn:Hdata.
    + cbn [fst snd]. unfold get. rewrite Hb, Hdata. reflexivity.
    + destruct (db (bytes key)) as [dbValue|] eqn:Hdb; cbn [fst snd]; [|auto].
      unfold get. cbn [_data]. rewrite Hb, lookup_insert_eq. reflexivity.
Qed.

Lemma cache_serves_by_contents_witness :
  let st := (get FINALIZED_HEIGHT_KEY db2 validatorsKey empty_store).2 in
  get FINALIZED_HEIGHT_KEY db98 validatorsKey' st = (Some validatorsValue, st).
Proof.
  exact (proj2 (cache_serves_by_contents FINALIZED_HEIGHT_KEY validatorsKey
                  validatorsKey' validatorsValue' db2 db98 empty_store eq_refl)).
Defined.

(** ** Snapshots *)

Section Snapshots.

Variable FH : Buffer.
Variable PREFIX : string.

Lemma finalize_as_keys batch st :
  finalize FH PREFIX batch st
  = finalize_keys FH PREFIX st (_updatedKeys st) (emptyDiff, batch).
Proof. unfold finalize. now destruct (_updatedKeys st). Qed.

Lemma same_contents_clone copies (m : gmap string Buffer) :
  same_contents (clone copies m) m.
Proof.
  intros contents. rewrite lookup_clone. now destruct (m !! contents).
Qed.

Lemma clone_empty copies : clone copies ∅ = ∅.
Proof.
  apply map_empty. intros contents. now rewrite lookup_clone, lookup_empty.
Qed.

(** The diff depends on the contents of the cached values and on the
    initial values of the updated keys, not on which objects the cache
    holds. *)
Lemma finalize_keys_same_diff (a b : Store) keys diff batch batch' d puts :
  same_contents (_data a) (_data b) ->
  Forall (fun key => _initialValue a !! bytes key = _initialValue b !! bytes key)
    keys ->
  finalize_keys FH PREFIX b keys (diff, batch) = Some (d, puts) ->
  exists puts', finalize_keys FH PREFIX a keys (diff, batch') = Some (d, puts').
Proof.
  intros Hd. revert diff batch batch'.
  induction keys as [|key keys IH]; intros diff batch batch' H.
  - cbn. intros [= <- _]. eauto.
  - inversion H as [|? ? Hk Hkeys]; subst. cbn [finalize_keys]. rewrite Hk.
    pose proof (Hd (bytes key)) as Hv.
    destruct (same_object key FH); [now apply IH|].
    destruct (_initialValue b !! bytes key) as [initialValue|]; [|now apply IH].
    destruct (_data a !! bytes key) as [va|], (_data b !! bytes key) as [vb|];
      cbn in Hv; try discriminate.
    injection Hv as Hv. unfold equals. rewrite Hv.
    destruct (negb _); now apply IH.
Qed.

(** What [get] and [set] keep of a snapshot [O] taken with the updated keys
    [U] when the initial values were [IV]. *)
Definition keeps (O : gmap string Buffer) (U : list Buffer)
    (IV : gmap string Buffer) (cur : Store) : Prop :=
  _originalData cur = O /\ _originalUpdatedKeys cur = U /\
  (forall c, is_Some (O !! c) -> is_Some (_data cur !! c)) /\
  (forall c, is_Some (O !! c) -> _initialValue cur !! c = IV !! c).

Lemma run_keeps db O U IV op cur :
  isGetOrSet op = true -> keeps O U IV cur -> keeps O U IV (run FH db op cur).
Proof.
  intros Hop (HO & HU & Hdom & Hiv).
  destruct op as [key|key value|copies|copies]; try discriminate; cbn [run].
  - unfold get. destruct (_data cur !! bytes key) eqn:Hdata;
      [repeat split; assumption|].
    destruct (db (bytes key)); [|repeat split; assumption].
    cbn. repeat split; cbn; trivial.
    + intros c Hc. now apply lookup_insert_is_Some, Hdom.
    + intros c Hc. destruct (negb _); [|now apply Hiv].
      rewrite lookup_insert_ne; [now apply Hiv|].
      intros <-. apply Hdom in Hc. rewrite Hdata in Hc. now destruct Hc.
  - repeat split; cbn; trivial.
    intros c Hc. now apply lookup_insert_is_Some, Hdom.
Qed.

Lemma runAll_keeps db O U IV ops cur :
  forallb isGetOrSet ops = true -> keeps O U IV cur ->
  keeps O U IV (runAll FH db ops cur).
Proof.
  revert cur. induction ops as [|op ops IH]; intros cur Hops H; cbn;
    [exact H|].
  cbn in Hops. apply andb_true_iff in Hops as [Hop Hops].
  apply IH; [exact Hops|]. now apply run_keeps.
Qed.

Lemma createSnapshot_keeps copies st :
  keeps (clone copies (_data st)) (_updatedKeys st) (_initialValue st)
    (createSnapshot copies st).
Proof.
  repeat split; cbn; trivial.
  intros c. rewrite lookup_clone. destruct (_data st !! c); cbn; [eauto|].
  intros [v Hv]. discriminate Hv.
Qed.

End Snapshots.

Example snapshot_discards_writes :
  let st := runAll FINALIZED_HEIGHT_KEY db2
              [Get validatorsKey; Set_ validatorsKey validatorsValue'] empty_store in
  let later := runAll FINALIZED_HEIGHT_KEY db2
                 [Set_ FINALIZED_HEIGHT_KEY height100; Get FINALIZED_HEIGHT_KEY;
                  Set_ validatorsKey' validatorsValue]
                 (createSnapshot (copiesAt 10) st) in
  finalize FINALIZED_HEIGHT_KEY "consensus:" [] later
  = Some (emptyDiff,
          [("consensus:validators", Some validatorsValue);
           ("consensus:finalizedHeight", Some height100);
           ("consensus:validators", Some validatorsValue)]) /\
  finalize FINALIZED_HEIGHT_KEY "consensus:" [] st
  = Some ({| updated := [("consensus:validators", validatorsValue)];
             created := []; deleted := [] |},
          [("consensus:validators", Some validatorsValue')]) /\
  finalize FINALIZED_HEIGHT_KEY "consensus:" []
    (restoreSnapshot (copiesAt 12) later)
  = Some ({| updated := [("consensus:validators", validatorsValue)];
             created := []; deleted := [] |},
          [("consensus:validators",
            Some {| ref := 13; bytes := bytes validatorsValue' |})]).
Proof. vm_compute. repeat split; reflexivity. Qed.

(** X17. A snapshot is restored by contents. Take a snapshot of a reachable
    store, run any sequence of [get] and [set] (the database may have changed
    meanwhile), and restore: the updated keys are the key objects of the
    moment of the snapshot, and the cache holds, under the same keys, values
    with the same contents; they are the copies [restoreSnapshot] made, not
    the objects that were cached. [finalize] returns the diff it would have
    returned then, and puts the same database keys with values of the same
    contents. The initial values cached by the reads in between are kept, and
    do not matter. *)
Theorem snapshot_round_trip (FH : Buffer) (PREFIX : string)
    (db db' : string -> option Buffer) (before between : list Call)
    (copies copies' : string -> nat) (batch : Batch) :
  forallb isGetOrSet between = true ->
  let st := runAll FH db before empty_store in
  let restored :=
    restoreSnapshot copies'
      (runAll FH db' between (createSnapshot copies st)) in
  same_contents (_data restored) (_data st) /\
  (forall contents value,
     _data restored !! contents = Some value -> ref value = copies' contents) /\
  _updatedKeys restored = _updatedKeys st /\
  exists diff,
    finalize FH PREFIX batch st
    = Some (diff, batch ++ map (putOf PREFIX st) (_updatedKeys st)) /\
    finalize FH PREFIX batch restored
    = Some (diff, batch ++ map (putOf PREFIX restored) (_updatedKeys st)) /\
    contents_of (map (putOf PREFIX restored) (_updatedKeys st))
    = contents_of (map (putOf PREFIX st) (_updatedKeys st)).
Proof.
  intros Hops st restored.
  destruct (runAll_keeps FH db' _ _ _ between _ Hops
              (createSnapshot_keeps copies st))
    as (HO & HU & _ & Hiv).
  assert (Hdata : _data restored = clone copies' (clone copies (_data st)))
    by (unfold restored; cbn; now rewrite HO).
  assert (Hsame : same_contents (_data restored) (_data st)).
  { intros c. rewrite Hdata, !same_contents_clone. reflexivity. }
  assert (Hkeys : _updatedKeys restored = _updatedKeys st) by exact HU.
  split; [exact Hsame|]. split; [|split; [exact Hkeys|]].
  { intros c value. rewrite Hdata, lookup_clone.
    destruct (clone copies (_data st) !! c); cbn; [|discriminate].
    now intros [= <-]. }
  destruct (finalize_reachable FH PREFIX db before batch) as (diff & Hst & _).
  fold st in Hst. exists diff. split; [exact Hst|].
  destruct (runAll_covered FH db before empty_store empty_store_covered)
    as [Hcov _].
  fold st in Hcov.
  rewrite finalize_as_keys in Hst.
  assert (Hinit : Forall (fun key => _initialValue restored !! bytes key
                                     = _initialValue st !! bytes key)
                    (_updatedKeys st)).
  { eapply Forall_impl; [exact Hcov|]. intros key Hk.
    unfold restored. cbn. apply Hiv.
    rewrite lookup_clone. destruct Hk as [v ->]. cbn. eauto. }
  destruct (finalize_keys_same_diff FH PREFIX restored st (_updatedKeys st)
              emptyDiff batch batch diff _ Hsame Hinit Hst)
    as [puts' Hputs].
  split.
  - rewrite finalize_as_keys, Hkeys, Hputs.
    apply (finalize_keys_result FH PREFIX db) in Hputs as [-> _]. reflexivity.
  - unfold contents_of. rewrite !map_map. apply map_ext. intros key. cbn.
    f_equal. exact (Hsame (bytes key)).
Qed.

Lemma snapshot_round_trip_witness :
  let st := runAll FINALIZED_HEIGHT_KEY db2
              [Get validatorsKey; Set_ validatorsKey validatorsValue'] empty_store in
  let restored :=
    restoreSnapshot (copiesAt 12)
      (runAll FINALIZED_HEIGHT_KEY db98
         [Set_ FINALIZED_HEIGHT_KEY height100; Get FINALIZED_HEIGHT_KEY;
          Set_ validatorsKey' validatorsValue]
         (createSnapshot (copiesAt 10) st)) in
  same_contents (_data restored) (_data st) /\
  _updatedKeys restored = _updatedKeys st.
Proof.
  intros st restored.
  destruct (snapshot_round_trip FINALIZED_HEIGHT_KEY "consensus:" db2 db98
              [Get validatorsKey; Set_ validatorsKey validatorsValue']
              [Set_ FINALIZED_HEIGHT_KEY height100; Get FINALIZED_HEIGHT_KEY;
               Set_ validatorsKey' validatorsValue]
              (copiesAt 10) (copiesAt 12) [] eq_refl)
    as (H1 & _ & H2 & _).
  split; [exact H1|exact H2].
Defined.

(** X18. A store that never took a snapshot restores to the new store: the
    constructor leaves the snapshot empty, so [restoreSnapshot] after any
    sequence of [get] and [set] empties the cache and the updated keys, and
    [finalize] then returns the empty diff and leaves the batch as it was:
    every write is lost. *)
Theorem restore_without_snapshot (FH : Buffer) (PREFIX : string)
    (db : string -> option Buffer) (ops : list Call)
    (copies : string -> nat) (batch : Batch) :
  forallb isGetOrSet ops = true ->
  let restored := restoreSnapshot copies (runAll FH db ops empty_store) in
  _data restored = ∅ /\ _updatedKeys restored = [] /\
  finalize FH PREFIX batch restored = Some (emptyDiff, batch).
Proof.
  intros Hops restored.
  assert (H : keeps ∅ [] ∅ (runAll FH db ops empty_store)).
  { apply runAll_keeps; [exact Hops|]. repeat split; cbn; trivial. }
  destruct H as (HO & HU & _).
  assert (Hkeys : _updatedKeys restored = []) by exact HU.
  split; [|split; [exact Hkeys|]].
  - unfold restored. cbn. rewrite HO. apply clone_empty.
  - unfold finalize. rewrite Hkeys. reflexivity.
Qed.

Lemma restore_without_snapshot_witness :
  finalize FINALIZED_HEIGHT_KEY "consensus:" []
    (restoreSnapshot (copiesAt 10)
       (runAll FINALIZED_HEIGHT_KEY db2
          [Set_ validatorsKey validatorsValue'; Get FINALIZED_HEIGHT_KEY]
          empty_store))
  = Some (emptyDiff, []).
Proof.
  exact (proj2 (proj2 (restore_without_snapshot FINALIZED_HEIGHT_KEY "consensus:"
                         db2 [Set_ validatorsKey validatorsValue';
                              Get FINALIZED_HEIGHT_KEY] (copiesAt 10) []
                         eq_refl))).
Defined.

(** ** Read before write, or not *)

(** X19. What the diff says of a written key depends on whether the key was
    read first. A key other than the finalized-height constant that is read
    from the database and then written with a value equal to the one read is
    put in the batch and left out of the diff; written without having been
    read it is reported as created, whether or not the database holds it. *)
Theorem diff_depends_on_read (FH key old new : Buffer) (PREFIX : string)
    (db : string -> option Buffer) (batch : Batch) :
  same_object key FH = false ->
  db (bytes key) = Some old ->
  equals old new = true ->
  finalize FH PREFIX batch (runAll FH db [Get key; Set_ key new] empty_store)
  = Some (emptyDiff, batch ++ [(concatKeys PREFIX key, Some new)]) /\
  finalize FH PREFIX batch (runAll FH db [Set_ key new] empty_store)
  = Some ({| updated := []; created := [concatKeys PREFIX key]; deleted := [] |},
          batch ++ [(concatKeys PREFIX key, Some new)]).
Proof.
  intros Hobject Hdb Hequal. split.
  - cbn [runAll fold_left run]. unfold get. cbn [_data empty_store].
    rewrite lookup_empty, Hdb, Hobject. cbn [negb snd].
    unfold finalize, set, Set_add.
    cbn [_updatedKeys existsb app length Nat.eqb empty_store finalize_keys
         _data _initialValue].
    rewrite !lookup_insert_eq, Hobject, Hequal. reflexivity.
  - cbn [runAll fold_left run]. unfold finalize, set, Set_add.
    cbn [_updatedKeys existsb app length Nat.eqb empty_store finalize_keys
         _data _initialValue].
    rewrite lookup_insert_eq, lookup_empty, Hobject. reflexivity.
Qed.

Lemma diff_depends_on_read_witness :
  finalize FINALIZED_HEIGHT_KEY "consensus:" []
    (runAll FINALIZED_HEIGHT_KEY db2 [Set_ validatorsKey validatorsValue]
       empty_store)
  = Some ({| updated := []; created := ["consensus:validators"]; deleted := [] |},
          [("consensus:validators", Some validatorsValue)]).
Proof.
  exact (proj2 (diff_depends_on_read FINALIZED_HEIGHT_KEY validatorsKey
                  validatorsValue validatorsValue "consensus:" db2 []
                  eq_refl eq_refl eq_refl)).
Defined.

End ConsensusStateStoreProperties.
